(** * react-konva-interactive-stage: the transform and tracking engine

    A shallow embedding of the hooks under [src/hooks] (geometry utilities,
    transform model, resize adapter, drag and wheel handlers, bounds
    tracker, change watcher) and of the minimap widget and its snapshot,
    together with the properties stated about them.

    Numbers.  The source computes on JavaScript numbers.  They are modelled
    by [num]: exact rationals extended with the IEEE-754 special values
    [NaN], [+Infinity] and [-Infinity], with the IEEE rules for the special
    values (division by zero, [Infinity - Infinity], [0 * Infinity], [NaN]
    propagation, comparisons with [NaN]).  Rounding, overflow and the sign
    of zero are not modelled by [num]: selection by [min], [max] and
    comparisons and the control flow are those of the source, but an
    arithmetic equation or inequality proved over [num] is a statement in
    exact arithmetic, which the source meets up to floating-point rounding
    only.  The module [Binary64] transcribes the geometry utilities a
    second time, onto binary64 floating-point numbers, to evaluate them as
    the source does on concrete inputs. *)

From Stdlib Require Import QArith Qcanon Qround ZArith Lia Lqa Bool List String.
From Stdlib Require Floats.
Import ListNotations.

(** ** JavaScript numbers *)

Module JS.

Inductive num : Type :=
| NaN
| NInf
| Fin (q : Qc)
| PInf.

Definition Qcleb (a b : Qc) : bool := Qle_bool a b.

Definition zero : num := Fin (Q2Qc 0).
Definition one : num := Fin (Q2Qc 1).
Definition two : num := Fin (Q2Qc 2).
Definition ofZ (z : Z) : num := Fin (Q2Qc (inject_Z z)).
Definition ofQ (q : Q) : num := Fin (Q2Qc q).

(** Unary minus. *)
Definition neg (a : num) : num :=
  match a with
  | NaN => NaN
  | NInf => PInf
  | PInf => NInf
  | Fin q => Fin (- q)%Qc
  end.

(** [a + b] *)
Definition add (a b : num) : num :=
  match a, b with
  | NaN, _ | _, NaN => NaN
  | PInf, NInf | NInf, PInf => NaN
  | PInf, _ | _, PInf => PInf
  | NInf, _ | _, NInf => NInf
  | Fin p, Fin q => Fin (p + q)%Qc
  end.

(** [a - b] *)
Definition sub (a b : num) : num := add a (neg b).

(** The sign of a rational: [Lt] negative, [Eq] zero, [Gt] positive. *)
Definition Qcsign (q : Qc) : comparison := (q ?= Q2Qc 0)%Qc.

(** [a * b]; infinity times zero is [NaN]. *)
Definition mul (a b : num) : num :=
  match a, b with
  | NaN, _ | _, NaN => NaN
  | Fin p, Fin q => Fin (p * q)%Qc
  | PInf, PInf | NInf, NInf => PInf
  | PInf, NInf | NInf, PInf => NInf
  | PInf, Fin q | Fin q, PInf =>
      match Qcsign q with Eq => NaN | Lt => NInf | Gt => PInf end
  | NInf, Fin q | Fin q, NInf =>
      match Qcsign q with Eq => NaN | Lt => PInf | Gt => NInf end
  end.

(** [a / b]; a non-zero number over zero is an infinity, [0 / 0] and
    [Infinity / Infinity] are [NaN]. *)
Definition div (a b : num) : num :=
  match a, b with
  | NaN, _ | _, NaN => NaN
  | (PInf | NInf), (PInf | NInf) => NaN
  | PInf, Fin q => match Qcsign q with Lt => NInf | _ => PInf end
  | NInf, Fin q => match Qcsign q with Lt => PInf | _ => NInf end
  | Fin _, (PInf | NInf) => zero
  | Fin p, Fin q =>
      match Qcsign q with
      | Eq => match Qcsign p with Eq => NaN | Lt => NInf | Gt => PInf end
      | _ => Fin (p / q)%Qc
      end
  end.

(** [a <= b] of the source: false as soon as one side is [NaN]. *)
Definition leb (a b : num) : bool :=
  match a, b with
  | NaN, _ | _, NaN => false
  | NInf, _ => true
  | _, PInf => true
  | Fin p, Fin q => Qcleb p q
  | _, _ => false
  end.

(** [a < b] *)
Definition ltb (a b : num) : bool :=
  match a, b with
  | NaN, _ | _, NaN => false
  | _, _ => negb (leb b a)
  end.

(** [a > b] *)
Definition gtb (a b : num) : bool := ltb b a.

(** [a === b] on numbers: [NaN] is not equal to itself. *)
Definition eqb (a b : num) : bool :=
  match a, b with
  | NInf, NInf | PInf, PInf => true
  | Fin p, Fin q => Qc_eq_bool p q
  | _, _ => false
  end.

(** [a !== b] *)
Definition neqb (a b : num) : bool := negb (eqb a b).

(** Structural equality test ([NaN] equal to itself), for the proofs. *)
Definition same (a b : num) : bool :=
  match a, b with
  | NaN, NaN => true
  | _, _ => eqb a b
  end.

(** [Math.min(a, b)] *)
Definition min (a b : num) : num :=
  match a, b with
  | NaN, _ | _, NaN => NaN
  | _, _ => if leb a b then a else b
  end.

(** [Math.max(a, b)] *)
Definition max (a b : num) : num :=
  match a, b with
  | NaN, _ | _, NaN => NaN
  | _, _ => if leb a b then b else a
  end.

(** [Math.abs(a)] *)
Definition abs (a : num) : num :=
  match a with
  | NaN => NaN
  | NInf | PInf => PInf
  | Fin q => if Qcleb (Q2Qc 0) q then Fin q else Fin (- q)%Qc
  end.

(** [Math.round(a)]: the nearest integer, halves rounded up. *)
Definition round (a : num) : num :=
  match a with
  | Fin q => ofZ (Qfloor (q + Q2Qc (1 # 2))%Qc)
  | _ => a
  end.

(** Truthiness of a number: [0] and [NaN] are falsy. *)
Definition truthy (a : num) : bool :=
  match a with
  | NaN => false
  | Fin q => negb (Qc_eq_bool q (Q2Qc 0))
  | _ => true
  end.

(** [Number.MAX_VALUE], [(2^53 - 1) * 2^971]. *)
Definition MAX_VALUE : num := ofZ ((2 ^ 53 - 1) * 2 ^ 971).

Definition finite (a : num) : Prop :=
  match a with Fin _ => True | _ => False end.

(** A finite, strictly positive number. *)
Definition positive (a : num) : Prop :=
  match a with Fin q => (Q2Qc 0 < q)%Qc | _ => False end.

End JS.

Import JS.

Declare Scope js_scope.
Delimit Scope js_scope with js.
Bind Scope js_scope with num.
Infix "+" := add : js_scope.
Infix "-" := sub : js_scope.
Infix "*" := mul : js_scope.
Infix "/" := div : js_scope.
Notation "- x" := (neg x) : js_scope.
Infix "<=?" := leb : js_scope.
Infix ">?" := gtb : js_scope.
Infix "===" := eqb (at level 70) : js_scope.
Infix "!==" := neqb (at level 70) : js_scope.
Open Scope js_scope.

(** ** The data model ([types]) *)

Record Dimensions := { d_width : num; d_height : num }.
Record Point := { px : num; py : num }.
Record Bounds := { bx : num; by_ : num; b_width : num; b_height : num }.
Record Scale := { sx : num; sy : num }.
Record VisibleRect :=
  { left : num; top : num; right : num; bottom : num }.

(** A [Bounds] is passed where the source expects a [Dimensions]. *)
Definition dims (b : Bounds) : Dimensions :=
  {| d_width := b_width b; d_height := b_height b |}.

(** ** Geometry utilities ([transform-utils.ts]) *)

Definition calculateScale (bounds container : Dimensions) : Scale :=
  let scaleX := d_width container / d_width bounds in
  let scaleY := d_height container / d_height bounds in
  let scale := min scaleX scaleY in
  {| sx := if scale === zero then one else scale;
     sy := if scale === zero then one else scale |}.

Definition calculateInitialPosition
  (bounds : Bounds) (container : Dimensions) (scale : num) : Point :=
  let x := (d_width container - b_width bounds * scale) / two
           - bx bounds * scale in
  let y := (d_height container - b_height bounds * scale) / two
           - by_ bounds * scale in
  {| px := x; py := y |}.

Definition getResetTransform (bounds : Bounds) (container : Dimensions)
  : num * Point :=
  let initialScale := calculateScale (dims bounds) container in
  let scale := sx initialScale in
  let position := calculateInitialPosition bounds container scale in
  (scale, position).

Definition calculateVisibleRect
  (position : Point) (scale : num) (container : Dimensions) : VisibleRect :=
  let worldX := - px position / scale in
  let worldY := - py position / scale in
  let visibleWidth := d_width container / scale in
  let visibleHeight := d_height container / scale in
  {| left := worldX;
     top := worldY;
     right := worldX + visibleWidth;
     bottom := worldY + visibleHeight |}.

(** The limits [(minPosX, maxPosX, minPosY, maxPosY)] computed by
    [clampPosition] before it clamps. *)
Definition clampLimits (scale : num) (container : Dimensions) (bounds : Bounds)
  : (num * num) * (num * num) :=
  let initialScale := calculateScale (dims bounds) container in
  let initialPos :=
    calculateInitialPosition bounds container (sx initialScale) in
  let initialRect :=
    calculateVisibleRect initialPos (sx initialScale) container in
  let maxPosX := - left initialRect * scale in
  let minPosX := - right initialRect * scale + d_width container in
  let maxPosY := - top initialRect * scale in
  let minPosY := - bottom initialRect * scale + d_height container in
  ((minPosX, maxPosX), (minPosY, maxPosY)).

Definition clampPosition
  (position : Point) (scale : num) (container : Dimensions) (bounds : Bounds)
  : Point :=
  let '((minPosX, maxPosX), (minPosY, maxPosY)) :=
    clampLimits scale container bounds in
  let clampedX := max minPosX (min maxPosX (px position)) in
  let clampedY := max minPosY (min maxPosY (py position)) in
  {| px := clampedX; py := clampedY |}.

(** ** Options *)

(** Modelled from the spec: the [types] module, which declares
    [InteractiveStageOptions], is not among the sources.  The record has
    the fields the spec's data model lists and the hooks read. *)
Record Options := {
  maxZoom : num;
  minZoom : num;
  panSpeed : num;
  zoomSpeed : num;
  opt_clampPosition : bool;
  zoomAnimationDuration : num;
  zoomPanTransitionDelay : num
}.

(** ** The transform model ([useStageTransform.ts])

    The React state of the hook and the refs of the hooks it calls.  A
    handler reads the values of the render it was created in (its closure)
    and queues updates; it is modelled as a function from the state at the
    time of the event to the state after the updates are applied. *)

Record Stage := {
  scale : num;                       (* useState(1) *)
  position : Point;                  (* useState({ x: 0, y: 0 }) *)
  isDragging : bool;                 (* useState(false) *)
  bounds : Bounds;                   (* useStageBounds: useState *)
  previousContainer : Dimensions;    (* useStageResize: useRef(container) *)
  lastMousePos : option Point;       (* useDragHandlers: useRef(null) *)
  lastZoomTime : Z                   (* useWheelHandlers: useRef(Date.now()) *)
}.

Definition initialBounds : Bounds :=
  {| bx := zero; by_ := zero; b_width := one; b_height := one |}.

(** The state of the first render, in a container [container] at time
    [now]. *)
Definition initialStage (container : Dimensions) (now : Z) : Stage :=
  {| scale := one;
     position := {| px := zero; py := zero |};
     isDragging := false;
     bounds := initialBounds;
     previousContainer := container;
     lastMousePos := None;
     lastZoomTime := now |}.

Definition setScale (v : num) (st : Stage) : Stage :=
  {| scale := v;
     position := position st;
     isDragging := isDragging st;
     bounds := bounds st;
     previousContainer := previousContainer st;
     lastMousePos := lastMousePos st;
     lastZoomTime := lastZoomTime st |}.

Definition _setPosition (p : Point) (st : Stage) : Stage :=
  {| scale := scale st;
     position := p;
     isDragging := isDragging st;
     bounds := bounds st;
     previousContainer := previousContainer st;
     lastMousePos := lastMousePos st;
     lastZoomTime := lastZoomTime st |}.

Definition setIsDragging (b : bool) (st : Stage) : Stage :=
  {| scale := scale st;
     position := position st;
     isDragging := b;
     bounds := bounds st;
     previousContainer := previousContainer st;
     lastMousePos := lastMousePos st;
     lastZoomTime := lastZoomTime st |}.

Definition setBounds (b : Bounds) (st : Stage) : Stage :=
  {| scale := scale st;
     position := position st;
     isDragging := isDragging st;
     bounds := b;
     previousContainer := previousContainer st;
     lastMousePos := lastMousePos st;
     lastZoomTime := lastZoomTime st |}.

Definition setPreviousContainer (c : Dimensions) (st : Stage) : Stage :=
  {| scale := scale st;
     position := position st;
     isDragging := isDragging st;
     bounds := bounds st;
     previousContainer := c;
     lastMousePos := lastMousePos st;
     lastZoomTime := lastZoomTime st |}.

Definition setLastMousePos (p : option Point) (st : Stage) : Stage :=
  {| scale := scale st;
     position := position st;
     isDragging := isDragging st;
     bounds := bounds st;
     previousContainer := previousContainer st;
     lastMousePos := p;
     lastZoomTime := lastZoomTime st |}.

Definition setLastZoomTime (t : Z) (st : Stage) : Stage :=
  {| scale := scale st;
     position := position st;
     isDragging := isDragging st;
     bounds := bounds st;
     previousContainer := previousContainer st;
     lastMousePos := lastMousePos st;
     lastZoomTime := t |}.

Section Hooks.

(** The props of the render: the options and the container dimensions. *)
Variable options : Options.
Variable container : Dimensions.

(** [r] is the state of the render the callback closes over, [st] the
    state the queued updates are applied to. *)
Definition clampAndSetPosition (r : Stage) (newPosition : Point)
  (newScale : num) (st : Stage) : Stage :=
  if negb (opt_clampPosition options) then _setPosition newPosition st
  else
    let clampedPosition :=
      clampPosition newPosition newScale container (bounds r) in
    _setPosition clampedPosition st.

Definition setPosition (r : Stage) (newPosition : Point)
  (newScale : option num) (st : Stage) : Stage :=
  let st := match newScale with
            | Some s => setScale s st
            | None => st
            end in
  clampAndSetPosition r newPosition
    (match newScale with Some s => s | None => scale r end) st.

(** ** The resize adapter ([useStageResize.ts]) *)

(** The world point at the centre of a container [c] under the transform
    of [st]: the expression of [prevCenter]. *)
Definition centerWorldPoint (c : Dimensions) (st : Stage) : Point :=
  {| px := (- px (position st) + d_width c / two) / scale st;
     py := (- py (position st) + d_height c / two) / scale st |}.

(** [newScale] and [newPosition] of [updateTransform]. *)
Definition resizeTarget (st : Stage) : num * Point :=
  let prevCenter := centerWorldPoint (previousContainer st) st in
  let prevBaseScale :=
    calculateScale (dims (bounds st)) (previousContainer st) in
  let newBaseScale := calculateScale (dims (bounds st)) container in
  let relativeScale := scale st / sx prevBaseScale in
  let newScale := sx newBaseScale * relativeScale in
  let newPosition :=
    {| px := - px prevCenter * newScale + d_width container / two;
       py := - py prevCenter * newScale + d_height container / two |} in
  (newScale, newPosition).

Definition updateTransform (st : Stage) : Stage :=
  let '(newScale, newPosition) := resizeTarget st in
  setPreviousContainer container
    (setPosition st newPosition (Some newScale) (setScale newScale st)).

(** The effect that runs when the container dimensions change. *)
Definition resizeEffect (st : Stage) : Stage :=
  if (d_width container !== d_width (previousContainer st))
     || (d_height container !== d_height (previousContainer st))
  then updateTransform st
  else st.

(** ** The drag controller ([useDragHandlers.ts]) *)

(** What a handler reads from a Konva mouse event: whether the target has
    a stage, and the stage's pointer position. *)
Record MouseEv := {
  me_stage : bool;
  me_pointer : option Point
}.

Definition handleDragStart (e : MouseEv) (st : Stage) : Stage :=
  if negb (me_stage e) then st
  else match me_pointer e with
       | None => st
       | Some pointerPos =>
           setLastMousePos (Some pointerPos) (setIsDragging true st)
       end.

Definition handleDragEnd (st : Stage) : Stage :=
  setLastMousePos None (setIsDragging false st).

(** [r] is the state of the render the handler was created in: it
    supplies [isDragging], [position] and [scale] (the handler is
    re-created when they change).  [lastMousePos] is a ref: it is read
    from, and written at once to, the live state [st]. *)
Definition handleDragMove (r : Stage) (e : MouseEv) (st : Stage) : Stage :=
  match isDragging r, lastMousePos st with
  | true, Some last =>
      if negb (me_stage e) then st
      else match me_pointer e with
           | None => st
           | Some pointerPos =>
               let dx := px pointerPos - px last in
               let dy := py pointerPos - py last in
               let newPosition :=
                 {| px := px (position r) + dx;
                    py := py (position r) + dy |} in
               setPosition r newPosition (Some (scale r))
                 (setLastMousePos (Some pointerPos) st)
           end
  | _, _ => st
  end.

(** ** The zoom controller *)

(** Modelled from the spec: [useZoomHandlers] is not among the sources.
    [clampZoom v] is the spec's [clamp(v, minZoom, maxZoom)]. *)
Definition clampZoom (v : num) : num :=
  max (minZoom options) (min (maxZoom options) v).

(** The world point shown at the screen point [p] under the transform of
    [st]: the spec's [worldAnchor = (pointerScreenPos - position) / scale]. *)
Definition worldPointAt (p : Point) (st : Stage) : Point :=
  {| px := (px p - px (position st)) / scale st;
     py := (py p - py (position st)) / scale st |}.

(** Modelled from the spec: [useZoomHandlers] is not among the sources.
    [factor = 1 + direction * (delta / zoomSpeed)], the new scale is the
    clamped product, the new position keeps the world point under the
    pointer, and both are committed through [setPosition].  [r] is the
    state of the render the callback closes over. *)
Definition zoomTarget (r : Stage) (pointer : Point) (direction delta : num)
  : num * Point :=
  let factor := one + direction * (delta / zoomSpeed options) in
  let newScale := clampZoom (scale r * factor) in
  let worldAnchor := worldPointAt pointer r in
  let newPosition :=
    {| px := px pointer - px worldAnchor * newScale;
       py := py pointer - py worldAnchor * newScale |} in
  (newScale, newPosition).

Definition handleZoom (r : Stage) (pointer : Point) (direction delta : num)
  (st : Stage) : Stage :=
  let '(newScale, newPosition) := zoomTarget r pointer direction delta in
  setPosition r newPosition (Some newScale) st.

(** Modelled from the spec: [useZoomHandlers] is not among the sources.
    [resetZoom] sets the transform to the reset transform of the bounds
    and container of its render, committed through [setPosition]; with
    [animate] the scale and position are interpolated towards it, and
    this is the state the animation ends in. *)
Definition resetZoom (r : Stage) (st : Stage) : Stage :=
  let '(newScale, newPosition) := getResetTransform (bounds r) container in
  setPosition r newPosition (Some newScale) st.

(** The effect of [useStageTransform] that resets the zoom when the
    bounds are first established; it runs in the render that follows a
    change of the bounds.  Modelled from the spec: [zoom], which
    [useZoomHandlers] returns, is the current scale. *)
Definition autoResetEffect (st : Stage) : Stage :=
  if (scale st !== one) || (b_width (bounds st) === one) then st
  else resetZoom st st.

(** ** The wheel router ([useWheelHandlers]) *)

(** [Math.sqrt] has no exact value on the rationals; the handler is
    parametrised by it. *)
Variable Math_sqrt : num -> num.

(** Whether the stage is still loading (a prop). *)
Variable loading : bool.

(** What the handler reads from a wheel gesture: the deltas, the modifier
    keys, whether the stage ref is set and its pointer position, the
    verdict of the intentional-scroll classifier ([lethargy.check(event)])
    and the clock ([Date.now()]). *)
Record WheelEv := {
  we_dx : num;
  we_dy : num;
  we_ctrlKey : bool;
  we_metaKey : bool;
  we_stage : bool;
  we_pointer : option Point;
  we_intentional : bool;
  we_now : Z
}.

(** The calls a wheel event makes on its collaborators, in order. *)
Inductive Call :=
| PreventDefault
| HandleZoom (pointer : Point) (direction delta : num)
| SetPosition (newPosition : Point).

(** The body of the wheel callback: the calls it makes and the value it
    leaves in [lastZoomTime.current]. *)
Definition wheelCallback (e : WheelEv) (st : Stage) : list Call * Z :=
  if loading then ([], lastZoomTime st)
  else if negb (we_stage e) then ([PreventDefault], lastZoomTime st)
  else match we_pointer e with
  | None => ([PreventDefault], lastZoomTime st)
  | Some pointer =>
      if we_ctrlKey e || we_metaKey e then
        let direction := if we_dy e >? zero then one else - one in
        ([PreventDefault; HandleZoom pointer direction (abs (we_dy e))],
         we_now e)
      else
        let now := we_now e in
        let timeSinceZoom := ofZ (now - lastZoomTime st) in
        let isIntentional := we_intentional e in
        if negb isIntentional
           && (timeSinceZoom <=? zoomPanTransitionDelay options)
        then ([PreventDefault], lastZoomTime st)
        else
          ([PreventDefault;
            SetPosition
              {| px := px (position st)
                       - we_dx e * Math_sqrt (panSpeed options);
                 py := py (position st)
                       - we_dy e * Math_sqrt (panSpeed options) |}],
           lastZoomTime st)
  end.

(** The effect of one call of the wheel callback on the state; [r] is the
    state the callback closed over. *)
Definition applyCall (r : Stage) (c : Call) (st : Stage) : Stage :=
  match c with
  | PreventDefault => st
  | HandleZoom pointer direction delta =>
      handleZoom r pointer direction delta st
  | SetPosition newPosition => setPosition r newPosition None st
  end.

Definition handleWheel (e : WheelEv) (st : Stage) : Stage :=
  let '(calls, t) := wheelCallback e st in
  setLastZoomTime t (fold_left (fun s c => applyCall st c s) calls st).

(** The [keyup] listener. *)
Definition handleKeyUp (key : string) (now : Z) (st : Stage) : Stage :=
  if String.eqb key "Meta"%string || String.eqb key "Control"%string
  then setLastZoomTime now st
  else st.

End Hooks.

(** ** The bounds tracker ([useStageBounds]) *)

(** The rectangle [shape.getClientRect()] returns, in screen space. *)
Record ClientRect := {
  cr_x : num;
  cr_y : num;
  cr_width : num;
  cr_height : num
}.

(** What [updateBounds] reads from the stage: its scale and position and,
    when the interactive layer is mounted, the client rectangles of the
    shapes of the layer. *)
Record StageHandle := {
  sh_scaleX : num;
  sh_position : Point;
  sh_layer : option (list ClientRect)
}.

Definition getWorldBox (box : ClientRect) (stageScale : num) (stagePos : Point)
  : ClientRect :=
  {| cr_x := (cr_x box - px stagePos) / stageScale;
     cr_y := (cr_y box - py stagePos) / stageScale;
     cr_width := cr_width box / stageScale;
     cr_height := cr_height box / stageScale |}.

(** The accumulators of the scan: [minX], [minY], [maxX], [maxY]. *)
Record Envelope := {
  minX : num;
  minY : num;
  maxX : num;
  maxY : num
}.

Definition emptyEnvelope : Envelope :=
  {| minX := MAX_VALUE;
     minY := MAX_VALUE;
     maxX := - MAX_VALUE;
     maxY := - MAX_VALUE |}.

(** One iteration of [nodes.forEach]. *)
Definition accumulate (stageScale : num) (stagePos : Point)
  (env : Envelope) (node : ClientRect) : Envelope :=
  let worldBox := getWorldBox node stageScale stagePos in
  {| minX := min (minX env) (cr_x worldBox);
     minY := min (minY env) (cr_y worldBox);
     maxX := max (maxX env) (cr_x worldBox + cr_width worldBox);
     maxY := max (maxY env) (cr_y worldBox + cr_height worldBox) |}.

Definition envelope (stageScale : num) (stagePos : Point)
  (nodes : list ClientRect) : Envelope :=
  fold_left (accumulate stageScale stagePos) nodes emptyEnvelope.

(** [manual || computed] for an optional number. *)
Definition orElse (manual : option num) (computed : num) : num :=
  match manual with
  | Some v => if truthy v then v else computed
  | None => computed
  end.

(** The candidate box [newBounds]. *)
Definition candidateBounds (boundsWidth boundsHeight : option num)
  (env : Envelope) : Bounds :=
  {| bx := zero;
     by_ := zero;
     b_width := orElse boundsWidth (round (maxX env + minX env));
     b_height := orElse boundsHeight (round (maxY env + minY env)) |}.

(** The dead-band test. *)
Definition significantlyChanged (newBounds bounds : Bounds) : bool :=
  (abs (bx newBounds - bx bounds) >? one)
  || (abs (by_ newBounds - by_ bounds) >? one)
  || (abs (b_width newBounds - b_width bounds) >? one)
  || (abs (b_height newBounds - b_height bounds) >? one).

(** How a run of [updateBounds] ends. *)
Inductive BoundsOutcome :=
| NoStage                      (* the stage ref is not set *)
| Retry                        (* no layer yet: scheduled again *)
| NoNodes                      (* the layer has no shape *)
| Kept                         (* within the dead band: no commit *)
| Committed (newBounds : Bounds).

Definition updateBounds (stage : option StageHandle)
  (boundsWidth boundsHeight : option num) (bounds : Bounds) : BoundsOutcome :=
  match stage with
  | None => NoStage
  | Some stage =>
      let stageScale := sh_scaleX stage in
      let stagePos := sh_position stage in
      match sh_layer stage with
      | None => Retry
      | Some nodes =>
          if (List.length nodes =? 0)%nat then NoNodes
          else
            let env := envelope stageScale stagePos nodes in
            let newBounds := candidateBounds boundsWidth boundsHeight env in
            if significantlyChanged newBounds bounds
            then Committed newBounds
            else Kept
      end
  end.

(** ** The change watcher ([useEvents.ts]) *)

Section Events.

(** A Konva node and its [_id]. *)
Variable Node : Type.
Variable _id : Node -> Z.

(** [Map<number, Konva.Node>]: the entries in insertion order, one per
    key. *)
Definition NodeMap := list (Z * Node).

(** [map.keys()] *)
Definition mapKeys (m : NodeMap) : list Z := map fst m.

(** [map.get(k)] *)
Fixpoint mapGet (k : Z) (m : NodeMap) : option Node :=
  match m with
  | [] => None
  | (k', v) :: m' => if (k =? k')%Z then Some v else mapGet k m'
  end.

(** [map.set(k, v)]: replaces the value of an existing key in place,
    appends a new key. *)
Fixpoint mapSet (k : Z) (v : Node) (m : NodeMap) : NodeMap :=
  match m with
  | [] => [(k, v)]
  | (k', v') :: m' =>
      if (k =? k')%Z then (k, v) :: m' else (k', v') :: mapSet k v m'
  end.

(** [map.delete(k)] *)
Fixpoint mapDelete (k : Z) (m : NodeMap) : NodeMap :=
  match m with
  | [] => []
  | (k', v') :: m' =>
      if (k =? k')%Z then m' else (k', v') :: mapDelete k m'
  end.

(** [set.has(k)] on a set of ids. *)
Definition has (k : Z) (s : list Z) : bool := existsb (Z.eqb k) s.

(** [set.add(k)] *)
Definition setAdd (k : Z) (s : list Z) : list Z :=
  if has k s then s else s ++ [k].

(** The refs of the hook: the tracked shapes and the ids with a pending
    property change. *)
Record Watcher := {
  shapesRef : NodeMap;
  modifiedNodesRef : list Z
}.

(** The callbacks a diff pass invokes, in order. *)
Inductive Notification :=
| OnNodesAdded (nodes : list Node)
| OnNodesRemoved (nodes : list Node)
| OnNodesModified (nodes : list Node).

(** [handlePropertyChange]: records the id of the shape that fired (a
    diff pass is then requested for the next animation frame). *)
Definition handlePropertyChange (shape : option Node) (w : Watcher)
  : Watcher :=
  match shape with
  | None => w
  | Some shape =>
      {| shapesRef := shapesRef w;
         modifiedNodesRef := setAdd (_id shape) (modifiedNodesRef w) |}
  end.

(** The loop over the current shapes: the map and [addedNodes] after
    it. *)
Definition addLoop (previousShapeIds : list Z) (currentShapes : list Node)
  (shapes : NodeMap) : NodeMap * list Node :=
  fold_left
    (fun acc shape =>
       if negb (has (_id shape) previousShapeIds)
       then (mapSet (_id shape) shape (fst acc), snd acc ++ [shape])
       else acc)
    currentShapes (shapes, []).

(** The loop over the previous ids: the map and [removedNodes] after
    it. *)
Definition removeLoop (currentShapeIds previousShapeIds : list Z)
  (shapes : NodeMap) : NodeMap * list Node :=
  fold_left
    (fun acc id =>
       if negb (has id currentShapeIds)
       then match mapGet id (fst acc) with
            | Some trackedNode =>
                (mapDelete id (fst acc), snd acc ++ [trackedNode])
            | None => acc
            end
       else acc)
    previousShapeIds (shapes, []).

(** The loop over the pending ids: [modifiedNodes]. *)
Definition modifiedLoop (pending : list Z) (currentShapes : list Node)
  : list Node :=
  fold_left
    (fun acc id =>
       match find (fun s => (_id s =? id)%Z) currentShapes with
       | Some shape => acc ++ [shape]
       | None => acc
       end)
    pending [].

(** The outcome of a diff pass. *)
Record Diff := {
  watcher : Watcher;
  addedNodes : list Node;
  removedNodes : list Node;
  modifiedNodes : list Node;
  notifications : list Notification
}.

(** [handleShapeChanges], on the shapes [stage.find("Shape")] returns. *)
Definition handleShapeChanges (currentShapes : list Node) (w : Watcher)
  : Diff :=
  let currentShapeIds := map _id currentShapes in
  let previousShapeIds := mapKeys (shapesRef w) in
  let '(shapes1, added) :=
    addLoop previousShapeIds currentShapes (shapesRef w) in
  let '(shapes2, removed) :=
    removeLoop currentShapeIds previousShapeIds shapes1 in
  let modified := modifiedLoop (modifiedNodesRef w) currentShapes in
  {| watcher := {| shapesRef := shapes2; modifiedNodesRef := [] |};
     addedNodes := added;
     removedNodes := removed;
     modifiedNodes := modified;
     notifications :=
       (if (0 <? List.length added)%nat then [OnNodesAdded added] else [])
       ++ (if (0 <? List.length removed)%nat
           then [OnNodesRemoved removed] else [])
       ++ (if (0 <? List.length modified)%nat
           then [OnNodesModified modified] else []) |}.

(** The registration of the shapes present when the effect runs. *)
Definition registerInitialShapes (initialShapes : list Node) (w : Watcher)
  : Watcher :=
  {| shapesRef :=
       fold_left (fun m shape => mapSet (_id shape) shape m)
         initialShapes (shapesRef w);
     modifiedNodesRef := modifiedNodesRef w |}.

End Events.

Arguments mapKeys {Node} m.
Arguments mapGet {Node} k m.
Arguments mapSet {Node} k v m.
Arguments mapDelete {Node} k m.

(** ** The minimap widget *)

(** The state of the widget: whether it is being dragged and where its
    frame sits in the container. *)
Record Minimap := {
  mm_dragging : bool;        (* useState(false) *)
  mm_position : Point        (* useState({ x: 0, y: 0 }) *)
}.

Definition minimapDragStart (m : Minimap) : Minimap :=
  {| mm_dragging := true; mm_position := mm_position m |}.

Definition minimapDragEnd (m : Minimap) : Minimap :=
  {| mm_dragging := false; mm_position := mm_position m |}.

(** The effect that keeps the frame within the container when the
    container or the size fraction changes. *)
Definition minimapKeepInside (container : Dimensions) (minimapPct : num)
  (m : Minimap) : Minimap :=
  let minimapWidth := d_width container * minimapPct in
  let minimapHeight := d_height container * minimapPct in
  {| mm_dragging := mm_dragging m;
     mm_position :=
       {| px := min (max (px (mm_position m)) zero)
                    (d_width container - minimapWidth);
          py := min (max (py (mm_position m)) zero)
                    (d_height container - minimapHeight) |} |}.

(** The [mousemove] listener, on the movement of the event. *)
Definition minimapDragMove (container : Dimensions) (minimapPct : num)
  (movementX movementY : num) (m : Minimap) : Minimap :=
  if negb (mm_dragging m) then m
  else
    let minimapWidth := d_width container * minimapPct in
    let minimapHeight := d_height container * minimapPct in
    let newX := min (max (px (mm_position m) + movementX) zero)
                    (d_width container - minimapWidth) in
    let newY := min (max (py (mm_position m) + movementY) zero)
                    (d_height container - minimapHeight) in
    {| mm_dragging := mm_dragging m;
       mm_position := {| px := newX; py := newY |} |}.

(** The style of the viewport indicator. *)
Record Overlay := {
  ov_left : num;
  ov_top : num;
  ov_width : num;
  ov_height : num
}.

Definition minimapOverlay (container : Dimensions) (initialScale : num)
  (bounds : Dimensions) (visibleRect : VisibleRect) (minimapPct : num)
  : Overlay :=
  {| ov_left :=
       (left visibleRect
        + (d_width container / initialScale - d_width bounds) / two)
       * initialScale * minimapPct;
     ov_top :=
       (top visibleRect
        + (d_height container / initialScale - d_height bounds) / two)
       * initialScale * minimapPct;
     ov_width :=
       (right visibleRect - left visibleRect) * minimapPct * initialScale;
     ov_height :=
       (bottom visibleRect - top visibleRect) * minimapPct * initialScale |}.

(** ** The minimap snapshot ([useMinimapPreview]) *)

(** What [capturePreview] reads and writes on the Konva stage. *)
Record KonvaStage := {
  k_x : num;
  k_y : num;
  k_scaleX : num;
  k_scaleY : num;
  k_width : num;
  k_height : num
}.

(** The argument of [stage.toDataURL] and the stage as it is when the
    call is made. *)
Record Capture := {
  cap_pixelRatio : num;
  cap_x : num;
  cap_y : num;
  cap_width : num;
  cap_height : num;
  cap_stage : KonvaStage
}.

(** [stage.scale({ x, y })] *)
Definition k_setScale (x y : num) (k : KonvaStage) : KonvaStage :=
  {| k_x := k_x k; k_y := k_y k; k_scaleX := x; k_scaleY := y;
     k_width := k_width k; k_height := k_height k |}.

(** [stage.position({ x, y })] *)
Definition k_setPosition (x y : num) (k : KonvaStage) : KonvaStage :=
  {| k_x := x; k_y := y; k_scaleX := k_scaleX k; k_scaleY := k_scaleY k;
     k_width := k_width k; k_height := k_height k |}.

(** [capturePreview]: the stage after the call and the capture made, or
    [None] when the stage ref is not set or the minimap is disabled. *)
Definition capturePreview (stage : option KonvaStage) (enabled : bool)
  (bounds : Bounds) (container : Dimensions) (initialScale : num)
  : option (KonvaStage * Capture) :=
  match stage with
  | None => None
  | Some stage =>
      if negb enabled then None
      else
        let x := k_x stage in
        let y := k_y stage in
        let scale := k_scaleX stage in
        let stage := k_setScale one one stage in
        let stage := k_setPosition zero zero stage in
        let horizontalPadding :=
          (d_width container / initialScale - b_width bounds) / two in
        let verticalPadding :=
          (d_height container / initialScale - b_height bounds) / two in
        let totalVisibleWidth := b_width bounds + horizontalPadding * two in
        let contentScale := k_width stage / totalVisibleWidth in
        let capture :=
          {| cap_pixelRatio := ofQ (1 # 2);
             cap_x := bx bounds - horizontalPadding;
             cap_y := by_ bounds - verticalPadding;
             cap_width := k_width stage / contentScale;
             cap_height := k_height stage / contentScale;
             cap_stage := stage |} in
        let stage := k_setScale scale scale stage in
        let stage := k_setPosition x y stage in
        Some (stage, capture)
  end.

(** ** The stage as a transition system *)

(** Deep equality of two bounds (a [NaN] field equals itself). *)
Definition sameBounds (a b : Bounds) : bool :=
  same (bx a) (bx b) && same (by_ a) (by_ b)
  && same (b_width a) (b_width b) && same (b_height a) (b_height b).

Section System.

Variable options : Options.
Variable Math_sqrt : num -> num.
Variable loading : bool.

(** The container dimensions (a prop) and the state of the hooks. *)
Record World := {
  w_container : Dimensions;
  w_stage : Stage
}.

Inductive Event :=
| EvResize (newContainer : Dimensions)
| EvDragStart (e : MouseEv)
| EvDragMove (e : MouseEv)
| EvDragEnd
| EvWheel (e : WheelEv)
| EvKeyUp (key : string) (now : Z)
| EvBounds (newBounds : Bounds)
| EvResetZoom.

(** The bounds tracker commits [newBounds], and the auto-reset effect
    runs in the render that follows if the bounds have changed.  Modelled
    from the spec: [useDeepEffect] is not among the sources; the effect is
    triggered by a change of the value of its dependency [bounds]. *)
Definition commitBounds (c : Dimensions) (newBounds : Bounds) (st : Stage)
  : Stage :=
  if sameBounds newBounds (bounds st) then setBounds newBounds st
  else autoResetEffect options c (setBounds newBounds st).

(** One event, handled by the callbacks of an up-to-date render (the
    closure of each handler is the current state).  [EvResetZoom] is a
    call of [resetZoom] by the embedding application; [zoomToElement],
    which reads a node's box from Konva, is not an event of the system. *)
Definition step (w : World) (ev : Event) : World :=
  let c := w_container w in
  let st := w_stage w in
  match ev with
  | EvResize c' =>
      {| w_container := c'; w_stage := resizeEffect options c' st |}
  | EvDragStart e =>
      {| w_container := c; w_stage := handleDragStart e st |}
  | EvDragMove e =>
      {| w_container := c; w_stage := handleDragMove options c st e st |}
  | EvDragEnd =>
      {| w_container := c; w_stage := handleDragEnd st |}
  | EvWheel e =>
      {| w_container := c;
         w_stage := handleWheel options c Math_sqrt loading e st |}
  | EvKeyUp key now =>
      {| w_container := c; w_stage := handleKeyUp key now st |}
  | EvBounds b =>
      {| w_container := c; w_stage := commitBounds c b st |}
  | EvResetZoom =>
      {| w_container := c; w_stage := resetZoom options c st st |}
  end.

Definition run (w : World) (evs : list Event) : World :=
  fold_left step evs w.

(** The clock reading an event carries, if any. *)
Definition stamp (ev : Event) : option Z :=
  match ev with
  | EvWheel e => Some (we_now e)
  | EvKeyUp _ now => Some now
  | _ => None
  end.

(** No event of [evs] reads a clock earlier than [t]. *)
Definition notBefore (t : Z) (evs : list Event) : Prop :=
  Forall (fun ev => match stamp ev with
                    | Some t' => (t <= t')%Z
                    | None => True
                    end) evs.

(** [minZoom <= s && s <= maxZoom] *)
Definition zoomInRange (s : num) : bool :=
  (minZoom options <=? s) && (s <=? maxZoom options).

End System.

(** ** Predicates used in the statements *)

(** The transform model commits the target [(newScale, newPosition)] as it
    is: clamping is switched off, or the position already lies within the
    clamp limits. *)
Definition commitsVerbatim (options : Options) (container : Dimensions)
  (bounds : Bounds) (target : num * Point) : Prop :=
  opt_clampPosition options = false
  \/ clampPosition (snd target) (fst target) container bounds = snd target.

Definition finitePoint (p : Point) : Prop := finite (px p) /\ finite (py p).

Definition positiveDims (d : Dimensions) : Prop :=
  positive (d_width d) /\ positive (d_height d).




(** The options have a finite zoom range with [0 < minZoom <= maxZoom]
    and a positive zoom speed. *)
Definition zoomOptionsOk (options : Options) : Prop :=
  positive (minZoom options) /\ finite (maxZoom options)
  /\ (minZoom options <=? maxZoom options) = true
  /\ positive (zoomSpeed options).

(** A mouse event on the stage with the pointer at [p]. *)
Definition mouseAt (p : Point) : MouseEv :=
  {| me_stage := true; me_pointer := Some p |}.

(** A drag gesture after its start: the pointer moves through [ps], and
    a render takes place after every move, so that each move is handled by
    a handler that closes over the position the move before it
    committed. *)
Definition dragMoves (options : Options) (container : Dimensions)
  (ps : list Point) (st : Stage) : Stage :=
  fold_left
    (fun s p => handleDragMove options container s (mouseAt p) s) ps st.

(** The same moves, all handled by the handler of one render [r]: no
    render takes place between them. *)
Definition dragMovesWithin (options : Options) (container : Dimensions)
  (r : Stage) (ps : list Point) (st : Stage) : Stage :=
  fold_left
    (fun s p => handleDragMove options container r (mouseAt p) s) ps st.

(** The dragging flag is set exactly when a last pointer sample is
    held. *)
Definition dragConsistent (st : Stage) : Prop :=
  isDragging st = match lastMousePos st with
                  | Some _ => true
                  | None => false
                  end.

(** A finite number within the range of the number type,
    [-MAX_VALUE <= v <= MAX_VALUE]. *)
Definition representable (v : num) : Prop :=
  finite v /\ (- MAX_VALUE <=? v) = true /\ (v <=? MAX_VALUE) = true.

(** The world box of a node has representable edges. *)
Definition representableBox (w : ClientRect) : Prop :=
  representable (cr_x w) /\ representable (cr_y w)
  /\ representable (cr_x w + cr_width w)
  /\ representable (cr_y w + cr_height w).

(** Structural equality test on points, for the proofs. *)
Definition samePoint (a b : Point) : bool :=
  same (px a) (px b) && same (py a) (py b).


(** ** Example data *)

Definition dimsOf (w h : Z) : Dimensions :=
  {| d_width := ofZ w; d_height := ofZ h |}.

Definition pointOf (x y : Z) : Point := {| px := ofZ x; py := ofZ y |}.

Definition boundsOf (x y w h : Z) : Bounds :=
  {| bx := ofZ x; by_ := ofZ y; b_width := ofZ w; b_height := ofZ h |}.

Definition rectOf (x y w h : Z) : ClientRect :=
  {| cr_x := ofZ x; cr_y := ofZ y; cr_width := ofZ w; cr_height := ofZ h |}.

(** A stage at scale [1] and position [(0, 0)] whose interactive layer
    holds the shapes with client rectangles [nodes]. *)
Definition stageWith (nodes : list ClientRect) : option StageHandle :=
  Some {| sh_scaleX := one;
          sh_position := pointOf 0 0;
          sh_layer := Some nodes |}.

(** A wheel gesture without modifier key, over the stage at [(50, 50)],
    scrolling by [dy] at time [now], that the classifier does not mark as
    intentional. *)
Definition panGesture (dy : Z) (now : Z) : WheelEv :=
  {| we_dx := zero; we_dy := ofZ dy;
     we_ctrlKey := false; we_metaKey := false;
     we_stage := true; we_pointer := Some (pointOf 50 50);
     we_intentional := false; we_now := now |}.

(** A wheel gesture with the control key held, over the stage at
    [(50, 50)], scrolling by [dy] at time [now]. *)
Definition zoomGesture (dy : Z) (now : Z) : WheelEv :=
  {| we_dx := zero; we_dy := ofZ dy;
     we_ctrlKey := true; we_metaKey := false;
     we_stage := true; we_pointer := Some (pointOf 50 50);
     we_intentional := false; we_now := now |}.

(** A watcher over shapes that are their own ids: it tracks shapes [1]
    and [2], and shape [2] has a pending change. *)
Definition exampleWatcher : Watcher Z :=
  {| shapesRef := [(1, 1); (2, 2)]%Z; modifiedNodesRef := [2%Z] |}.

(** An [800 x 300] Konva stage at position [(-200, 40)] and uniform
    scale [3]. *)
Definition exampleKonva : KonvaStage :=
  {| k_x := ofZ (-200); k_y := ofZ 40;
     k_scaleX := ofZ 3; k_scaleY := ofZ 3;
     k_width := ofZ 800; k_height := ofZ 300 |}.

(** The first render in a [100 x 100] container at time [0]. *)
Definition exampleWorld : World :=
  {| w_container := dimsOf 100 100;
     w_stage := initialStage (dimsOf 100 100) 0 |}.

(** Options with zoom range [[1/2, 5]], zoom speed [5], pan speed [1],
    a [100] ms zoom-to-pan delay, and clamping as given. *)
Definition exampleOptions (clamp : bool) : Options :=
  {| maxZoom := ofZ 5;
     minZoom := ofQ (1 # 2);
     panSpeed := one;
     zoomSpeed := ofZ 5;
     opt_clampPosition := clamp;
     zoomAnimationDuration := ofQ (3 # 10);
     zoomPanTransitionDelay := ofZ 100 |}.

(** A stage showing [100 x 100] bounds at scale [s] and position
    [(x, y)], last laid out in a [pw x ph] container. *)
Definition exampleStage (s : Q) (x y : Z) (pw ph : Z) : Stage :=
  {| scale := ofQ s;
     position := pointOf x y;
     isDragging := false;
     bounds := boundsOf 0 0 100 100;
     previousContainer := dimsOf pw ph;
     lastMousePos := None;
     lastZoomTime := 0 |}.

(** ** The geometry utilities on binary64 numbers

    The same functions of [transform-utils.ts] once more, over the kernel's
    binary64 floating-point numbers, whose operations round as IEEE-754
    prescribes and as the source's do.  [min] and [max] are [Math.min] and
    [Math.max]: [NaN] if an argument is [NaN], and [-0] below [+0]. *)

Module Binary64.

Import PrimFloat.
Local Open Scope float_scope.

Definition num : Set := float.

Definition min (a b : num) : num :=
  if is_nan a || is_nan b then nan
  else if ltb a b then a
  else if ltb b a then b
  else if get_sign a then a else b.

Definition max (a b : num) : num :=
  if is_nan a || is_nan b then nan
  else if ltb a b then b
  else if ltb b a then a
  else if get_sign a then b else a.

Record Dimensions := { d_width : num; d_height : num }.
Record Point := { px : num; py : num }.
Record Bounds := { bx : num; by_ : num; b_width : num; b_height : num }.
Record Scale := { sx : num; sy : num }.
Record VisibleRect :=
  { left : num; top : num; right : num; bottom : num }.

Definition dims (b : Bounds) : Dimensions :=
  {| d_width := b_width b; d_height := b_height b |}.

Definition calculateScale (bounds container : Dimensions) : Scale :=
  let scaleX := d_width container / d_width bounds in
  let scaleY := d_height container / d_height bounds in
  let scale := min scaleX scaleY in
  {| sx := if scale =? 0 then 1 else scale;
     sy := if scale =? 0 then 1 else scale |}.

Definition calculateInitialPosition
  (bounds : Bounds) (container : Dimensions) (scale : num) : Point :=
  let x := (d_width container - b_width bounds * scale) / 2
           - bx bounds * scale in
  let y := (d_height container - b_height bounds * scale) / 2
           - by_ bounds * scale in
  {| px := x; py := y |}.

Definition calculateVisibleRect
  (position : Point) (scale : num) (container : Dimensions) : VisibleRect :=
  let worldX := - px position / scale in
  let worldY := - py position / scale in
  let visibleWidth := d_width container / scale in
  let visibleHeight := d_height container / scale in
  {| left := worldX;
     top := worldY;
     right := worldX + visibleWidth;
     bottom := worldY + visibleHeight |}.

Definition clampLimits (scale : num) (container : Dimensions) (bounds : Bounds)
  : (num * num) * (num * num) :=
  let initialScale := calculateScale (dims bounds) container in
  let initialPos :=
    calculateInitialPosition bounds container (sx initialScale) in
  let initialRect :=
    calculateVisibleRect initialPos (sx initialScale) container in
  let maxPosX := - left initialRect * scale in
  let minPosX := - right initialRect * scale + d_width container in
  let maxPosY := - top initialRect * scale in
  let minPosY := - bottom initialRect * scale + d_height container in
  ((minPosX, maxPosX), (minPosY, maxPosY)).

Definition clampPosition
  (position : Point) (scale : num) (container : Dimensions) (bounds : Bounds)
  : Point :=
  let '((minPosX, maxPosX), (minPosY, maxPosY)) :=
    clampLimits scale container bounds in
  let clampedX := max minPosX (min maxPosX (px position)) in
  let clampedY := max minPosY (min maxPosY (py position)) in
  {| px := clampedX; py := clampedY |}.

(** The comparisons [a < b] and [a === b] of the source. *)
Definition lt (a b : num) : bool := ltb a b.
Definition equal (a b : num) : bool := a =? b.

(** Bounds [1234 x 777] at the origin in a [1366 x 768] container, the
    fit scale of the pair, and two candidate positions. *)
Definition exampleBounds : Bounds :=
  {| bx := 0; by_ := 0; b_width := 1234; b_height := 777 |}.

Definition exampleContainer : Dimensions :=
  {| d_width := 1366; d_height := 768 |}.

Definition exampleFit : num :=
  sx (calculateScale (dims exampleBounds) exampleContainer).

Definition candidateNear : Point := {| px := 37; py := -12 |}.

Definition candidateFar : Point := {| px := 1e6; py := 1e6 |}.

End Binary64.

(** ** Order facts on [num] *)

Lemma Qcleb_le (a b : Qc) : Qcleb a b = true <-> (a <= b)%Qc.
Proof. unfold Qcleb, Qcle. apply Qle_bool_iff. Qed.

Lemma Qcleb_gt (a b : Qc) : Qcleb a b = false <-> (b < a)%Qc.
Proof.
  unfold Qcleb, Qclt. split; intro H.
  - apply Qnot_le_lt. intro L. apply Qle_bool_iff in L. congruence.
  - destruct (Qle_bool a b) eqn:E; [|reflexivity].
    apply Qle_bool_iff in E. exfalso. apply (Qlt_not_le _ _ H E).
Qed.

Lemma Qc_eq_bool_refl (a : Qc) : Qc_eq_bool a a = true.
Proof. unfold Qc_eq_bool. destruct (Qc_eq_dec a a); congruence. Qed.

Lemma Qc_eq_bool_true (a b : Qc) : Qc_eq_bool a b = true -> a = b.
Proof. apply Qc_eq_bool_correct. Qed.

Lemma same_eq (a b : num) : same a b = true <-> a = b.
Proof.
  split.
  - destruct a, b; simpl; try discriminate; try reflexivity.
    intro H. apply Qc_eq_bool_true in H. now subst.
  - intros ->. destruct b; simpl; auto using Qc_eq_bool_refl.
Qed.

(** Case analysis on a rational comparison inside a goal. *)
Ltac qc_cases :=
  repeat match goal with
    | |- context [Qcleb ?a ?b] =>
        let E := fresh "E" in
        destruct (Qcleb a b) eqn:E;
        [apply Qcleb_le in E | apply Qcleb_gt in E]
    end.

(** Closes a goal whose rational hypotheses are contradictory, or an
    equation between two rationals squeezed by the hypotheses. *)
Ltac qc_order :=
  try reflexivity;
  try (exfalso; unfold Qcle, Qclt in *; lra);
  try (f_equal; apply Qcle_antisym; unfold Qcle, Qclt in *; lra).

Lemma clamp_idempotent (lo hi x : num) :
  max lo (min hi (max lo (min hi x))) = max lo (min hi x).
Proof.
  destruct lo, hi, x; simpl; try reflexivity; qc_cases; simpl;
    qc_cases; simpl; qc_cases; qc_order.
Qed.

Lemma clamp_collapse (lo x : num) :
  x <> NaN -> max lo (min lo x) = lo.
Proof.
  intro Hx. destruct lo, x; simpl; try congruence; qc_cases; simpl;
    qc_cases; qc_order.
Qed.

(** ** Evaluating on concrete numbers *)

Ltac num_compute :=
  match goal with
  | |- @eq num _ _ => apply same_eq; vm_compute; reflexivity
  | |- @eq bool _ _ => vm_compute; reflexivity
  end.

(** ** Arithmetic on finite numbers *)

Lemma Qcsign_pos (q : Qc) : (Q2Qc 0 < q)%Qc -> Qcsign q = Gt.
Proof.
  intro H. unfold Qcsign. destruct (q ?= Q2Qc 0)%Qc eqn:E; auto.
  - apply Qceq_alt in E. subst. exfalso. unfold Qclt in H. lra.
  - apply Qclt_alt in E. exfalso. unfold Qclt in *. lra.
Qed.

Lemma Qcsign_nonzero (q : Qc) : q <> Q2Qc 0 -> Qcsign q <> Eq.
Proof. intros H E. apply H. now apply Qceq_alt. Qed.

Lemma div_Fin (p q : Qc) : q <> Q2Qc 0 -> Fin p / Fin q = Fin (p / q)%Qc.
Proof.
  intro H. apply Qcsign_nonzero in H. simpl.
  destruct (Qcsign q); congruence.
Qed.

Lemma div_Fin_pos (p q : Qc) :
  (Q2Qc 0 < q)%Qc -> Fin p / Fin q = Fin (p / q)%Qc.
Proof. intro H. simpl. now rewrite (Qcsign_pos q H). Qed.

Lemma Qc_pos_nonzero (q : Qc) : (Q2Qc 0 < q)%Qc -> q <> Q2Qc 0.
Proof. intros H ->. unfold Qclt in H. lra. Qed.

Lemma Qcdiv_pos (p q : Qc) :
  (Q2Qc 0 < p)%Qc -> (Q2Qc 0 < q)%Qc -> (Q2Qc 0 < p / q)%Qc.
Proof.
  intros Hp Hq. unfold Qcdiv.
  replace (Q2Qc 0) with (Q2Qc 0 * / q)%Qc by ring.
  apply Qcmult_lt_compat_r; [|assumption].
  unfold Qclt, Qcinv in *. simpl. rewrite Qred_correct.
  apply Qinv_lt_0_compat. exact Hq.
Qed.

Lemma eqb_zero_pos (q : Qc) : (Q2Qc 0 < q)%Qc -> (Fin q === zero) = false.
Proof.
  intro H. simpl. unfold Qc_eq_bool.
  destruct (Qc_eq_dec q (Q2Qc 0)) as [->|]; auto.
  exfalso. unfold Qclt in H. lra.
Qed.

(** On positive finite dimensions the fit scale is a positive finite
    number, the same on both axes. *)
Lemma calculateScale_positive (bounds container : Dimensions) :
  positive (d_width bounds) -> positive (d_height bounds) ->
  positive (d_width container) -> positive (d_height container) ->
  exists m : Qc,
    (Q2Qc 0 < m)%Qc /\
    calculateScale bounds container = {| sx := Fin m; sy := Fin m |}.
Proof.
  destruct bounds as [bw bh], container as [cw ch]. simpl.
  destruct bw as [| |bw|], bh as [| |bh|], cw as [| |cw|], ch as [| |ch|];
    simpl; try tauto.
  intros Hbw Hbh Hcw Hch. unfold calculateScale.
  cbn [d_width d_height].
  rewrite !div_Fin_pos by assumption.
  pose proof (Qcdiv_pos _ _ Hcw Hbw) as Hx.
  pose proof (Qcdiv_pos _ _ Hch Hbh) as Hy.
  unfold min, leb.
  destruct (Qcleb (cw / bw) (ch / bh)).
  - exists (cw / bw)%Qc. rewrite eqb_zero_pos by assumption. auto.
  - exists (ch / bh)%Qc. rewrite eqb_zero_pos by assumption. auto.
Qed.

Lemma two_pos : (Q2Qc 0 < Q2Qc 2)%Qc.
Proof. reflexivity. Qed.

Lemma Qc_two : Q2Qc 2 = (1 + 1)%Qc.
Proof. apply Qc_is_canon. reflexivity. Qed.

Lemma div_two (p : Qc) : Fin p / two = Fin (p / Q2Qc 2)%Qc.
Proof. apply div_Fin_pos, two_pos. Qed.

(** Normalises arithmetic on finite numbers whose divisors are known to
    be positive. *)
Ltac fin_arith :=
  repeat (cbn [add sub mul neg px py bx by_ b_width b_height d_width d_height
               sx sy left top right bottom dims fst snd
               scale position bounds previousContainer]
          || rewrite div_two
          || rewrite div_Fin_pos by assumption).

Ltac fin_field :=
  repeat match goal with |- (_, _) = (_, _) => f_equal end;
  match goal with
  | |- Fin _ = Fin _ =>
      apply f_equal; rewrite ?Qc_two; field;
      repeat split; try (apply Qc_pos_nonzero; assumption); try discriminate
  end.

(** ** Geometry utilities: properties *)

(** C7.  [clampPosition] is idempotent: clamping a clamped position with
    the same scale, container and bounds returns it unchanged. *)
Theorem clampPosition_idempotent
  (position : Point) (scale : num) (container : Dimensions) (bounds : Bounds) :
  clampPosition (clampPosition position scale container bounds)
    scale container bounds
  = clampPosition position scale container bounds.
Proof.
  unfold clampPosition.
  destruct (clampLimits scale container bounds) as [[loX hiX] [loY hiY]].
  cbn [px py]. now rewrite !clamp_idempotent.
Qed.

(** C6, in exact arithmetic.  On positive finite dimensions (and finite
    [bounds.x], [bounds.y]), at the fit scale the clamp limits of each
    axis coincide with the initial (centred) position, and every candidate
    position whose coordinates are not [NaN] is clamped to that position.
    The equalities are those of exact arithmetic: the source computes the
    limits in floating point and meets them up to rounding only. *)
Theorem clamp_at_fit_scale (bounds : Bounds) (container : Dimensions) :
  positive (b_width bounds) -> positive (b_height bounds) ->
  finite (bx bounds) -> finite (by_ bounds) ->
  positive (d_width container) -> positive (d_height container) ->
  let fit := sx (calculateScale (dims bounds) container) in
  let initialPos := calculateInitialPosition bounds container fit in
  clampLimits fit container bounds
  = ((px initialPos, px initialPos), (py initialPos, py initialPos))
  /\ forall p : Point,
      px p <> NaN -> py p <> NaN ->
      clampPosition p fit container bounds = initialPos.
Proof.
  intros Hbw Hbh Hbx Hby Hcw Hch fit initialPos.
  destruct (calculateScale_positive (dims bounds) container)
    as (m & Hm & E); try assumption.
  assert (Hfit : fit = Fin m) by (unfold fit; now rewrite E).
  assert (L : clampLimits fit container bounds
              = ((px initialPos, px initialPos),
                 (py initialPos, py initialPos))).
  { unfold initialPos. rewrite Hfit. unfold clampLimits. rewrite E.
    destruct bounds as [x y w h], container as [cw ch].
    cbn [bx by_ b_width b_height d_width d_height] in *.
    destruct x as [| |x|], y as [| |y|], w as [| |w|], h as [| |h|],
      cw as [| |cw|], ch as [| |ch|]; try contradiction.
    unfold calculateVisibleRect, calculateInitialPosition.
    cbn [positive] in *. fin_arith. fin_field. }
  split; [exact L|].
  intros p Hx Hy. unfold clampPosition. rewrite L.
  rewrite !clamp_collapse by assumption. now destruct initialPos.
Qed.

(** X2.  On positive finite dimensions [calculateScale] returns neither
    [0] nor [NaN], on either axis. *)
Lemma calculateScale_never_zero_or_NaN (bounds container : Dimensions) :
  positive (d_width bounds) -> positive (d_height bounds) ->
  positive (d_width container) -> positive (d_height container) ->
  let s := calculateScale bounds container in
  sx s <> zero /\ sx s <> NaN /\ sy s <> zero /\ sy s <> NaN.
Proof.
  intros Hbw Hbh Hcw Hch.
  destruct (calculateScale_positive _ _ Hbw Hbh Hcw Hch) as (m & Hm & E).
  rewrite E. cbn [sx sy].
  assert (Fin m <> zero).
  { intro F. injection F as F. revert Hm. rewrite F. discriminate. }
  repeat split; auto; discriminate.
Qed.

(** X3.  A container with a zero dimension, around positive finite
    bounds, gives the default scale [1]. *)
Lemma calculateScale_zero_container (bounds container : Dimensions) :
  positive (d_width bounds) -> positive (d_height bounds) ->
  (d_width container = zero /\ positive (d_height container))
  \/ (positive (d_width container) /\ d_height container = zero)
  \/ (d_width container = zero /\ d_height container = zero) ->
  calculateScale bounds container = {| sx := one; sy := one |}.
Proof.
  destruct bounds as [bw bh], container as [cw ch]. simpl.
  destruct bw as [| |bw|], bh as [| |bh|]; cbn [positive]; try tauto.
  intros Hbw Hbh H. unfold calculateScale. cbn [d_width d_height].
  assert (Z0 : forall b, (Q2Qc 0 < b)%Qc -> zero / Fin b = zero).
  { intros b Hb. unfold zero. rewrite div_Fin_pos by assumption.
    f_equal. field. try (now apply Qc_pos_nonzero). }
  destruct H as [[-> H]|[[H ->]|[-> ->]]].
  - destruct ch as [| |ch|]; try contradiction. cbn [positive] in H.
    rewrite Z0, div_Fin_pos by assumption.
    pose proof (Qcdiv_pos _ _ H Hbh) as P.
    assert (L : Qcleb (Q2Qc 0) (ch / bh) = true).
    { apply Qcleb_le. now apply Qclt_le_weak. }
    unfold min, zero, leb. now rewrite L.
  - destruct cw as [| |cw|]; try contradiction. cbn [positive] in H.
    rewrite Z0, div_Fin_pos by assumption.
    pose proof (Qcdiv_pos _ _ H Hbw) as P.
    assert (L : Qcleb (cw / bw) (Q2Qc 0) = false).
    { now apply Qcleb_gt. }
    unfold min, zero, leb. now rewrite L.
  - rewrite !Z0 by assumption. reflexivity.
Qed.

(** C5.  With a zero bounds dimension the division by zero is not caught:
    [calculateScale] returns [Infinity] for a [0 x 0] box, the scale of the
    other axis for a [0 x 10] box, and [NaN] when the container is zero on
    the same axis; none of them is the default [1]. *)
Theorem calculateScale_zero_bounds :
  calculateScale {| d_width := zero; d_height := zero |}
                 {| d_width := ofZ 800; d_height := ofZ 400 |}
  = {| sx := PInf; sy := PInf |}
  /\ calculateScale {| d_width := zero; d_height := ofZ 10 |}
                    {| d_width := ofZ 100; d_height := ofZ 100 |}
     = {| sx := ofZ 10; sy := ofZ 10 |}
  /\ calculateScale {| d_width := zero; d_height := ofZ 10 |}
                    {| d_width := zero; d_height := ofZ 100 |}
     = {| sx := NaN; sy := NaN |}.
Proof.
  repeat split; unfold calculateScale; f_equal; num_compute.
Qed.

(** ** The transform model: properties *)

Lemma eqb_eq (a b : num) : (a === b) = true -> a = b.
Proof.
  destruct a, b; simpl; try discriminate; try reflexivity.
  intro H. apply Qc_eq_bool_true in H. now subst.
Qed.

Lemma same_neq (a b : num) : same a b = false -> a <> b.
Proof. intros H E. apply same_eq in E. congruence. Qed.

Lemma commitsVerbatim_setPosition options container r target st :
  commitsVerbatim options container (bounds r) target ->
  setPosition options container r (snd target) (Some (fst target)) st
  = _setPosition (snd target) (setScale (fst target) st).
Proof.
  intros [H|H]; unfold setPosition, clampAndSetPosition; rewrite ?H.
  - reflexivity.
  - destruct (opt_clampPosition options); cbn [negb]; now rewrite ?H.
Qed.

Lemma Qcmult_pos (p q : Qc) :
  (Q2Qc 0 < p)%Qc -> (Q2Qc 0 < q)%Qc -> (Q2Qc 0 < p * q)%Qc.
Proof.
  intros Hp Hq. replace (Q2Qc 0) with (Q2Qc 0 * q)%Qc by ring.
  now apply Qcmult_lt_compat_r.
Qed.

(** On positive dimensions the resize target is a pair of finite numbers:
    the scale is the new fit scale times the zoom relative to the old fit
    scale, and the position puts the old centre at the new centre. *)
Lemma resizeTarget_finite container st :
  positiveDims (dims (bounds st)) ->
  positiveDims (previousContainer st) -> positiveDims container ->
  positive (scale st) -> finitePoint (position st) ->
  exists mp mn s x y pw ph cw ch : Qc,
    (Q2Qc 0 < mp)%Qc /\ (Q2Qc 0 < mn)%Qc /\ (Q2Qc 0 < s)%Qc
    /\ sx (calculateScale (dims (bounds st)) (previousContainer st)) = Fin mp
    /\ sx (calculateScale (dims (bounds st)) container) = Fin mn
    /\ scale st = Fin s
    /\ position st = {| px := Fin x; py := Fin y |}
    /\ previousContainer st = {| d_width := Fin pw; d_height := Fin ph |}
    /\ container = {| d_width := Fin cw; d_height := Fin ch |}
    /\ resizeTarget container st
       = (Fin (mn * (s / mp)),
          {| px := Fin (- ((- x + pw / Q2Qc 2) / s) * (mn * (s / mp))
                        + cw / Q2Qc 2);
             py := Fin (- ((- y + ph / Q2Qc 2) / s) * (mn * (s / mp))
                        + ch / Q2Qc 2) |})%Qc.
Proof.
  intros [Hbw Hbh] [Hpw Hph] [Hcw Hch] Hs [Hx Hy].
  destruct (calculateScale_positive _ _ Hbw Hbh Hpw Hph) as (mp & Hmp & Ep).
  destruct (calculateScale_positive _ _ Hbw Hbh Hcw Hch) as (mn & Hmn & En).
  unfold resizeTarget, centerWorldPoint. rewrite Ep, En.
  destruct st as [s [x y] dr b [pw ph] lm lz], container as [cw ch].
  cbn [scale position previousContainer px py d_width d_height sx] in *.
  destruct s as [| |s|], x as [| |x|], y as [| |y|], pw as [| |pw|],
    ph as [| |ph|], cw as [| |cw|], ch as [| |ch|]; try contradiction.
  cbn [positive] in *.
  exists mp, mn, s, x, y, pw, ph, cw, ch.
  repeat (split; [assumption || reflexivity|]).
  fin_arith. reflexivity.
Qed.

Lemma samePoint_eq (a b : Point) : samePoint a b = true <-> a = b.
Proof.
  unfold samePoint. rewrite andb_true_iff, !same_eq.
  destruct a, b; simpl. split.
  - now intros [-> ->].
  - intro H. now inversion H.
Qed.

Lemma samePoint_neq (a b : Point) : samePoint a b = false -> a <> b.
Proof. intros H E. apply samePoint_eq in E. congruence. Qed.

Lemma sameBounds_eq (a b : Bounds) : sameBounds a b = true -> a = b.
Proof.
  unfold sameBounds. rewrite !andb_true_iff, !same_eq.
  destruct a, b; simpl. now intros [[[-> ->] ->] ->].
Qed.

Ltac point_compute :=
  match goal with
  | |- @eq Point _ _ => apply samePoint_eq; vm_compute; reflexivity
  | |- not (@eq Point _ _) => apply samePoint_neq; vm_compute; reflexivity
  | |- @eq num _ _ => apply same_eq; vm_compute; reflexivity
  | |- not (@eq num _ _) => apply same_neq; vm_compute; reflexivity
  | |- @eq bool _ _ => vm_compute; reflexivity
  end.

(** Bounds [1000 x 500] at the origin in an [800 x 400] container: the
    fit scale is [0.8] and the initial position is [(0, 0)]. *)
Example reset_transform_fits :
  fst (getResetTransform (boundsOf 0 0 1000 500) (dimsOf 800 400))
  = ofQ (8 # 10)
  /\ snd (getResetTransform (boundsOf 0 0 1000 500) (dimsOf 800 400))
     = pointOf 0 0.
Proof. split; point_compute. Qed.

Lemma updateTransform_target options container st :
  updateTransform options container st
  = setPreviousContainer container
      (setPosition options container st
         (snd (resizeTarget container st))
         (Some (fst (resizeTarget container st)))
         (setScale (fst (resizeTarget container st)) st)).
Proof. unfold updateTransform. now destruct (resizeTarget container st). Qed.

Lemma neqb_false (a b : num) : (a !== b) = false -> a = b.
Proof.
  unfold neqb. intro H. apply eqb_eq. now destruct (a === b).
Qed.

(** C3, for unclamped commits.  When the resize adapter runs between containers of
    positive dimensions, on bounds of positive dimensions, a positive
    finite scale and a finite position, and the transform model commits
    the new position unclamped, the world point at the centre of the new
    container is the world point that was at the centre of the previous
    one. *)
Theorem resize_preserves_center options container st :
  positiveDims (dims (bounds st)) ->
  positiveDims (previousContainer st) -> positiveDims container ->
  positive (scale st) -> finitePoint (position st) ->
  commitsVerbatim options container (bounds st) (resizeTarget container st) ->
  centerWorldPoint container (resizeEffect options container st)
  = centerWorldPoint (previousContainer st) st.
Proof.
  intros Hb Hp Hc Hs Hpos Hcommit.
  unfold resizeEffect.
  destruct ((d_width container !== d_width (previousContainer st))
            || (d_height container !== d_height (previousContainer st)))
    eqn:Changed.
  - rewrite updateTransform_target, commitsVerbatim_setPosition by assumption.
    destruct (resizeTarget_finite container st Hb Hp Hc Hs Hpos)
      as (mp & mn & s & x & y & pw & ph & cw & ch
          & Hmp & Hmn & Hs' & Ep & En & Es & Epos & Eprev & Ec & Et).
    rewrite Et. unfold centerWorldPoint.
    cbn [setPreviousContainer _setPosition setScale scale position fst snd].
    rewrite Es, Epos, Eprev, Ec.
    assert (Hns : (Q2Qc 0 < mn * (s / mp))%Qc).
    { apply Qcmult_pos; [assumption|]. now apply Qcdiv_pos. }
    fin_arith. f_equal; fin_field.
  - apply orb_false_iff in Changed. destruct Changed as [Hw Hh].
    apply neqb_false in Hw. apply neqb_false in Hh.
    unfold centerWorldPoint. now rewrite Hw, Hh.
Qed.

Lemma resize_preserves_center_witness :
  centerWorldPoint (dimsOf 100 100)
    (resizeEffect (exampleOptions false) (dimsOf 100 100)
       (exampleStage 2 100 0 200 100))
  = centerWorldPoint (dimsOf 200 100) (exampleStage 2 100 0 200 100).
Proof.
  apply (resize_preserves_center (exampleOptions false) (dimsOf 100 100)
           (exampleStage 2 100 0 200 100)).
  - split; reflexivity.
  - split; reflexivity.
  - split; reflexivity.
  - reflexivity.
  - split; exact I.
  - left. reflexivity.
Defined.

(** C3, counterexample.  With clamping on, a stage showing [100 x 100]
    bounds at scale [2] and position [(100, 0)] in a [200 x 100] container
    has the world point [(0, 25)] at its centre; after the container
    shrinks to [100 x 100] the committed position is clamped to [(0, 0)]
    and the centre shows [(25, 25)]. *)
Lemma resize_center_moved_by_clamp :
  centerWorldPoint (dimsOf 200 100) (exampleStage 2 100 0 200 100)
  = pointOf 0 25
  /\ centerWorldPoint (dimsOf 100 100)
       (resizeEffect (exampleOptions true) (dimsOf 100 100)
          (exampleStage 2 100 0 200 100))
     = pointOf 25 25
  /\ centerWorldPoint (dimsOf 100 100)
       (resizeEffect (exampleOptions true) (dimsOf 100 100)
          (exampleStage 2 100 0 200 100))
     <> centerWorldPoint (dimsOf 200 100) (exampleStage 2 100 0 200 100).
Proof. repeat split; point_compute. Qed.

(** ** The zoom range *)

Lemma clampZoom_in_range options (v : num) :
  finite (minZoom options) -> finite (maxZoom options) ->
  (minZoom options <=? maxZoom options) = true ->
  v <> NaN ->
  zoomInRange options (clampZoom options v) = true.
Proof.
  unfold zoomInRange, clampZoom.
  destruct (minZoom options) as [| |lo|], (maxZoom options) as [| |hi|];
    try contradiction.
  intros _ _ L Hv. cbn [leb] in L. apply Qcleb_le in L.
  destruct v as [| |v|]; try congruence; simpl; qc_cases; simpl; qc_cases;
    try reflexivity; exfalso; unfold Qcle, Qclt in *; lra.
Qed.


Lemma in_range_positive options (s : num) :
  positive (minZoom options) -> finite (maxZoom options) ->
  zoomInRange options s = true -> positive s.
Proof.
  unfold zoomInRange.
  destruct (minZoom options) as [| |lo|], (maxZoom options) as [| |hi|];
    try contradiction.
  intros Hlo _. destruct s as [| |s|]; simpl; try discriminate.
  intro H. apply andb_true_iff in H. destruct H as [H _].
  apply Qcleb_le in H. cbn [positive] in Hlo.
  eapply Qclt_le_trans; eassumption.
Qed.

Lemma positive_finite (a : num) : positive a -> finite a.
Proof. destruct a; simpl; auto. Qed.


(** The zoom factor is finite on finite inputs and a positive speed. *)
Lemma zoom_product_number options (s direction delta : num) :
  positive (zoomSpeed options) -> finite s -> finite direction ->
  finite delta ->
  s * (one + direction * (delta / zoomSpeed options)) <> NaN.
Proof.
  destruct (zoomSpeed options) as [| |z|]; try contradiction.
  destruct s, direction, delta; try contradiction.
  cbn [positive]. intros Hz _ _ _.
  rewrite div_Fin_pos by assumption. discriminate.
Qed.









(** The auto-reset leaves the range as well: with zoom range [[1/2, 5]],
    the first commit of [10000 x 10000] bounds in a [100 x 100] container
    finds the scale at [1] and resets it to the fit scale [1/100]. *)
Example auto_reset_leaves_zoom_range :
  scale (commitBounds (exampleOptions true) (dimsOf 100 100)
           (boundsOf 0 0 10000 10000) (initialStage (dimsOf 100 100) 0))
  = ofQ (1 # 100)
  /\ zoomInRange (exampleOptions true)
       (scale (commitBounds (exampleOptions true) (dimsOf 100 100)
                 (boundsOf 0 0 10000 10000)
                 (initialStage (dimsOf 100 100) 0)))
     = false.
Proof. split; point_compute. Qed.


(** ** The zoom controller: the anchor *)

Lemma handleZoom_target options container r pointer direction delta st :
  handleZoom options container r pointer direction delta st
  = setPosition options container r
      (snd (zoomTarget options r pointer direction delta))
      (Some (fst (zoomTarget options r pointer direction delta))) st.
Proof.
  unfold handleZoom.
  now destruct (zoomTarget options r pointer direction delta).
Qed.

(** C4, for unclamped commits.  With a finite zoom range [0 < minZoom <= maxZoom], a
    positive zoom speed, a positive finite scale and finite position,
    pointer, direction and delta: when the transform model commits the
    zoomed position unclamped, the world point under the pointer after
    [handleZoom] is the world point that was under it before. *)
Theorem handleZoom_keeps_anchor options container r pointer direction delta :
  zoomOptionsOk options ->
  positive (scale r) -> finitePoint (position r) -> finitePoint pointer ->
  finite direction -> finite delta ->
  commitsVerbatim options container (bounds r)
    (zoomTarget options r pointer direction delta) ->
  worldPointAt pointer
    (handleZoom options container r pointer direction delta r)
  = worldPointAt pointer r.
Proof.
  intros (Hmin & Hmax & Hle & Hspeed) Hs [Hx Hy] [Hpx Hpy] Hdir Hdelta Hc.
  rewrite handleZoom_target, commitsVerbatim_setPosition by assumption.
  pose proof (positive_finite _ Hmin) as Hminf.
  pose proof (positive_finite _ Hs) as Hsf.
  pose proof (zoom_product_number options _ _ _ Hspeed Hsf Hdir Hdelta) as Hn.
  pose proof (clampZoom_in_range options _ Hminf Hmax Hle Hn) as Hin.
  apply (in_range_positive options _ Hmin Hmax) in Hin.
  unfold zoomTarget, worldPointAt in *.
  cbn [fst snd _setPosition setScale scale position px py] in *.
  destruct (clampZoom options _) as [| |ns|]; try contradiction.
  destruct r as [s [x y] dr b pc lm lz], pointer as [p q].
  cbn [scale position px py] in *.
  destruct s as [| |s|], x as [| |x|], y as [| |y|], p as [| |p|],
    q as [| |q|]; try contradiction.
  cbn [positive] in *. fin_arith. f_equal; fin_field.
Qed.

Lemma handleZoom_keeps_anchor_witness :
  worldPointAt (pointOf 0 0)
    (handleZoom (exampleOptions false) (dimsOf 100 100)
       (exampleStage 3 (-200) (-200) 100 100) (pointOf 0 0)
       (ofZ (-1)) (ofQ (5 # 2)) (exampleStage 3 (-200) (-200) 100 100))
  = worldPointAt (pointOf 0 0) (exampleStage 3 (-200) (-200) 100 100).
Proof.
  apply (handleZoom_keeps_anchor (exampleOptions false) (dimsOf 100 100)
           (exampleStage 3 (-200) (-200) 100 100) (pointOf 0 0)
           (ofZ (-1)) (ofQ (5 # 2))).
  - repeat split; reflexivity.
  - reflexivity.
  - split; exact I.
  - split; exact I.
  - exact I.
  - exact I.
  - left. reflexivity.
Defined.

(** C4, counterexample.  With clamping on and [100 x 100] bounds in a
    [100 x 100] container, at scale [3] and position [(-200, -200)] the
    pointer at [(0, 0)] is over the world point [(200/3, 200/3)].
    [handleZoom] with direction [-1], delta [5/2] and zoom speed [5] has
    factor [1/2] and new scale [3/2]; the anchored position [(-100, -100)]
    is clamped to [(-50, -50)], and the pointer is then over
    [(100/3, 100/3)]. *)
Lemma zoom_anchor_moved_by_clamp :
  worldPointAt (pointOf 0 0) (exampleStage 3 (-200) (-200) 100 100)
  = {| px := ofQ (200 # 3); py := ofQ (200 # 3) |}
  /\ zoomTarget (exampleOptions true) (exampleStage 3 (-200) (-200) 100 100)
       (pointOf 0 0) (ofZ (-1)) (ofQ (5 # 2))
     = (ofQ (3 # 2), pointOf (-100) (-100))
  /\ position
       (handleZoom (exampleOptions true) (dimsOf 100 100)
          (exampleStage 3 (-200) (-200) 100 100) (pointOf 0 0)
          (ofZ (-1)) (ofQ (5 # 2)) (exampleStage 3 (-200) (-200) 100 100))
     = pointOf (-50) (-50)
  /\ worldPointAt (pointOf 0 0)
       (handleZoom (exampleOptions true) (dimsOf 100 100)
          (exampleStage 3 (-200) (-200) 100 100) (pointOf 0 0)
          (ofZ (-1)) (ofQ (5 # 2)) (exampleStage 3 (-200) (-200) 100 100))
     = {| px := ofQ (100 # 3); py := ofQ (100 # 3) |}
  /\ worldPointAt (pointOf 0 0)
       (handleZoom (exampleOptions true) (dimsOf 100 100)
          (exampleStage 3 (-200) (-200) 100 100) (pointOf 0 0)
          (ofZ (-1)) (ofQ (5 # 2)) (exampleStage 3 (-200) (-200) 100 100))
     <> worldPointAt (pointOf 0 0) (exampleStage 3 (-200) (-200) 100 100).
Proof.
  split; [point_compute|].
  split; [unfold zoomTarget; f_equal; point_compute|].
  split; [point_compute|].
  split; point_compute.
Qed.

(** ** The wheel router: the pan-suppression window *)

Lemma setLastZoomTime_same st : setLastZoomTime (lastZoomTime st) st = st.
Proof. now destruct st. Qed.

(** In the pan branch, a gesture that is not intentional and falls within
    the delay makes no call to the position setter and leaves the state
    as it is. *)
Lemma wheel_gesture_discarded options container Math_sqrt loading e st :
  we_ctrlKey e = false -> we_metaKey e = false ->
  we_intentional e = false ->
  (ofZ (we_now e - lastZoomTime st) <=? zoomPanTransitionDelay options)
  = true ->
  (forall p,
      ~ In (SetPosition p)
          (fst (wheelCallback options Math_sqrt loading e st)))
  /\ handleWheel options container Math_sqrt loading e st = st.
Proof.
  intros Hc Hm Hi Hd. unfold handleWheel, wheelCallback.
  rewrite Hc, Hm, Hi, Hd. cbn [orb negb andb].
  destruct loading, (we_stage e), (we_pointer e);
    cbn [negb fst fold_left applyCall];
    (split; [intros q F; cbn [In] in F; intuition discriminate
            | apply setLastZoomTime_same]).
Qed.

(** C8.  A wheel event without zoom modifier, not classified as
    intentional, that arrives within [zoomPanTransitionDelay] of the
    recorded last zoom time is discarded: the callback does not call the
    position setter and the state, the position included, is unchanged. *)
Theorem wheel_pan_suppressed options container Math_sqrt loading e st :
  we_ctrlKey e = false -> we_metaKey e = false ->
  we_intentional e = false ->
  (ofZ (we_now e - lastZoomTime st) <=? zoomPanTransitionDelay options)
  = true ->
  (forall p,
      ~ In (SetPosition p)
          (fst (wheelCallback options Math_sqrt loading e st)))
  /\ handleWheel options container Math_sqrt loading e st = st.
Proof. apply wheel_gesture_discarded. Qed.

Lemma wheel_pan_suppressed_witness :
  handleWheel (exampleOptions true) (dimsOf 100 100) (fun x => x) false
    (panGesture 5 50) (exampleStage 3 (-200) (-200) 100 100)
  = exampleStage 3 (-200) (-200) 100 100.
Proof.
  apply (wheel_pan_suppressed (exampleOptions true) (dimsOf 100 100)
           (fun x => x) false (panGesture 5 50)
           (exampleStage 3 (-200) (-200) 100 100));
    reflexivity.
Defined.

Lemma leb_ofZ_mono (a b : Z) (d : num) :
  (a <= b)%Z -> (ofZ b <=? d) = true -> (ofZ a <=? d) = true.
Proof.
  intros Hab. destruct d as [| |d|]; cbn [leb ofZ]; auto.
  rewrite !Qcleb_le. intro H.
  apply Qcle_trans with (Q2Qc (inject_Z b)); [|exact H].
  unfold Qcle. cbn [this Q2Qc]. rewrite !Qred_correct.
  now rewrite <- Zle_Qle.
Qed.

Lemma setPosition_lastZoomTime options container r p s st :
  lastZoomTime (setPosition options container r p s st) = lastZoomTime st.
Proof.
  unfold setPosition, clampAndSetPosition.
  now destruct s, (negb (opt_clampPosition options)).
Qed.

(** An event leaves [lastZoomTime] as it is or sets it to its own clock
    reading. *)
Lemma step_lastZoomTime options Math_sqrt loading w ev :
  lastZoomTime (w_stage (step options Math_sqrt loading w ev))
  = lastZoomTime (w_stage w)
  \/ stamp ev
     = Some (lastZoomTime (w_stage (step options Math_sqrt loading w ev))).
Proof.
  destruct w as [c st].
  destruct ev as [c'|e|e|  |e|key now|b| ]; cbn [step w_stage stamp].
  - left. unfold resizeEffect. destruct (_ || _); [|reflexivity].
    rewrite updateTransform_target. cbn [setPreviousContainer lastZoomTime].
    now rewrite setPosition_lastZoomTime.
  - left. unfold handleDragStart.
    now destruct (me_stage e), (me_pointer e).
  - left. unfold handleDragMove.
    destruct (isDragging st), (lastMousePos st), (me_stage e), (me_pointer e);
      cbn [negb]; try reflexivity.
    now rewrite setPosition_lastZoomTime.
  - now left.
  - unfold handleWheel.
    destruct (wheelCallback options Math_sqrt loading e st) as [calls t] eqn:E.
    cbn [setLastZoomTime lastZoomTime].
    unfold wheelCallback in E.
    destruct loading; [injection E as _ <-; now left|].
    destruct (we_stage e); cbn [negb] in E; [|injection E as _ <-; now left].
    destruct (we_pointer e); [|injection E as _ <-; now left].
    destruct (we_ctrlKey e || we_metaKey e);
      [injection E as _ <-; now right|].
    destruct (negb (we_intentional e) && _); injection E as _ <-; now left.
  - unfold handleKeyUp. destruct (_ || _); [now right|now left].
  - left. unfold commitBounds, autoResetEffect.
    destruct (sameBounds b (bounds st)); [reflexivity|].
    destruct (_ || _); [reflexivity|].
    unfold resetZoom. cbn [getResetTransform].
    now rewrite setPosition_lastZoomTime.
  - left. unfold resetZoom. cbn [getResetTransform].
    now rewrite setPosition_lastZoomTime.
Qed.

Lemma run_lastZoomTime options Math_sqrt loading (t0 : Z) evs :
  notBefore t0 evs ->
  forall w,
    (t0 <= lastZoomTime (w_stage w))%Z ->
    (t0 <= lastZoomTime (w_stage (run options Math_sqrt loading w evs)))%Z.
Proof.
  unfold notBefore, run. induction 1 as [|ev evs Hev _ IH]; intros w Hw.
  - exact Hw.
  - cbn [fold_left]. apply IH.
    destruct (step_lastZoomTime options Math_sqrt loading w ev) as [E|E].
    + now rewrite E.
    + rewrite E in Hev. exact Hev.
Qed.

(** C9.  Releasing the Meta or Control key at time [t0] records [t0] as
    the last zoom time, whatever happened before.  After any later events,
    a wheel event without zoom modifier and not classified as intentional
    that arrives within [zoomPanTransitionDelay] of [t0] is discarded: no
    call to the position setter, state unchanged. *)
Theorem keyup_opens_suppression_window
  options Math_sqrt loading w key t0 evs e :
  key = "Meta"%string \/ key = "Control"%string ->
  notBefore t0 evs ->
  we_ctrlKey e = false -> we_metaKey e = false ->
  we_intentional e = false ->
  (ofZ (we_now e - t0) <=? zoomPanTransitionDelay options) = true ->
  lastZoomTime (w_stage (step options Math_sqrt loading w (EvKeyUp key t0)))
  = t0
  /\ (forall p,
        ~ In (SetPosition p)
            (fst (wheelCallback options Math_sqrt loading e
                    (w_stage
                       (run options Math_sqrt loading
                          (step options Math_sqrt loading w (EvKeyUp key t0))
                          evs)))))
  /\ step options Math_sqrt loading
       (run options Math_sqrt loading
          (step options Math_sqrt loading w (EvKeyUp key t0)) evs)
       (EvWheel e)
     = run options Math_sqrt loading
         (step options Math_sqrt loading w (EvKeyUp key t0)) evs.
Proof.
  intros Hkey Hevs Hc Hm Hi Hd.
  assert (K : lastZoomTime
                (w_stage (step options Math_sqrt loading w (EvKeyUp key t0)))
              = t0).
  { cbn [step w_stage]. unfold handleKeyUp.
    destruct Hkey as [-> | ->]; reflexivity. }
  split; [exact K|].
  set (w1 := step options Math_sqrt loading w (EvKeyUp key t0)) in *.
  assert (L : (t0 <= lastZoomTime
                       (w_stage (run options Math_sqrt loading w1 evs)))%Z).
  { apply run_lastZoomTime; [assumption|]. rewrite K. lia. }
  set (w2 := run options Math_sqrt loading w1 evs) in *.
  assert (D : (ofZ (we_now e - lastZoomTime (w_stage w2))
               <=? zoomPanTransitionDelay options) = true).
  { apply leb_ofZ_mono with (b := (we_now e - t0)%Z); [lia|assumption]. }
  destruct (wheel_gesture_discarded options (w_container w2) Math_sqrt
              loading e (w_stage w2) Hc Hm Hi D) as [N S].
  split; [exact N|].
  cbn [step]. rewrite S. now destruct w2.
Qed.

Lemma keyup_opens_suppression_window_witness :
  step (exampleOptions true) (fun x => x) false
    (run (exampleOptions true) (fun x => x) false
       (step (exampleOptions true) (fun x => x) false exampleWorld
          (EvKeyUp "Meta" 1000))
       [EvDragEnd; EvWheel (panGesture 3 1020); EvKeyUp "a" 1030])
    (EvWheel (panGesture 5 1050))
  = run (exampleOptions true) (fun x => x) false
      (step (exampleOptions true) (fun x => x) false exampleWorld
         (EvKeyUp "Meta" 1000))
      [EvDragEnd; EvWheel (panGesture 3 1020); EvKeyUp "a" 1030].
Proof.
  apply (keyup_opens_suppression_window (exampleOptions true) (fun x => x)
           false exampleWorld "Meta" 1000
           [EvDragEnd; EvWheel (panGesture 3 1020); EvKeyUp "a" 1030]
           (panGesture 5 1050)).
  - left. reflexivity.
  - repeat constructor; cbn; lia.
  - reflexivity.
  - reflexivity.
  - reflexivity.
  - reflexivity.
Defined.

Lemma clamp_at_fit_scale_witness :
  clampPosition (pointOf 37 (-12))
    (sx (calculateScale (dims (boundsOf 0 0 1000 500)) (dimsOf 800 400)))
    (dimsOf 800 400) (boundsOf 0 0 1000 500)
  = calculateInitialPosition (boundsOf 0 0 1000 500) (dimsOf 800 400)
      (sx (calculateScale (dims (boundsOf 0 0 1000 500)) (dimsOf 800 400))).
Proof.
  apply (clamp_at_fit_scale (boundsOf 0 0 1000 500) (dimsOf 800 400));
    try reflexivity; try exact I; discriminate.
Defined.

(** C6, counterexample on binary64 numbers.  For bounds [1234 x 777] at
    the origin in a [1366 x 768] container, at the fit scale the limits of
    the x axis do not coincide: [minPosX < maxPosX] (they differ in the
    last digits, [73.146718146718058] against [73.146718146718172]);
    [maxPosX] is the initial position, but the candidate [(37, -12)] is
    clamped to [minPosX], which is not the initial position, and the
    candidates [(37, -12)] and [(1e6, 1e6)] are clamped to two different
    positions. *)
Lemma clamp_at_fit_scale_rounds :
  Binary64.lt
    (fst (fst (Binary64.clampLimits Binary64.exampleFit
                 Binary64.exampleContainer Binary64.exampleBounds)))
    (snd (fst (Binary64.clampLimits Binary64.exampleFit
                 Binary64.exampleContainer Binary64.exampleBounds)))
  = true
  /\ Binary64.equal
       (snd (fst (Binary64.clampLimits Binary64.exampleFit
                    Binary64.exampleContainer Binary64.exampleBounds)))
       (Binary64.px
          (Binary64.calculateInitialPosition Binary64.exampleBounds
             Binary64.exampleContainer Binary64.exampleFit))
     = true
  /\ Binary64.equal
       (Binary64.px
          (Binary64.clampPosition Binary64.candidateNear Binary64.exampleFit
             Binary64.exampleContainer Binary64.exampleBounds))
       (Binary64.px
          (Binary64.calculateInitialPosition Binary64.exampleBounds
             Binary64.exampleContainer Binary64.exampleFit))
     = false
  /\ Binary64.equal
       (Binary64.px
          (Binary64.clampPosition Binary64.candidateNear Binary64.exampleFit
             Binary64.exampleContainer Binary64.exampleBounds))
       (Binary64.px
          (Binary64.clampPosition Binary64.candidateFar Binary64.exampleFit
             Binary64.exampleContainer Binary64.exampleBounds))
     = false.
Proof. repeat split; vm_compute; reflexivity. Qed.

(** ** The bounds tracker *)

(** Without manual bounds, a commit stores the box at the origin whose
    width and height are the rounded sums [maxX + minX] and
    [maxY + minY] of the scanned envelope. *)
Lemma updateBounds_committed stage nodes bounds newBounds :
  sh_layer stage = Some nodes ->
  updateBounds (Some stage) None None bounds = Committed newBounds ->
  let env := envelope (sh_scaleX stage) (sh_position stage) nodes in
  newBounds
  = {| bx := zero; by_ := zero;
       b_width := round (maxX env + minX env);
       b_height := round (maxY env + minY env) |}.
Proof.
  intros L. unfold updateBounds. rewrite L.
  destruct (List.length nodes =? 0)%nat; [discriminate|].
  destruct (significantlyChanged _ _); [|discriminate].
  intro H. injection H as <-. reflexivity.
Qed.

Lemma Committed_same (a b : Bounds) :
  sameBounds a b = true -> Committed a = Committed b.
Proof. intro H. f_equal. now apply sameBounds_eq. Qed.

(** C1.  One shape with client rectangle [(10, 10, 20, 20)] on a stage at
    scale [1] and position [(0, 0)]: the scan finds [minX = minY = 10]
    and [maxX = maxY = 30], an extent of [20 x 20], and [updateBounds]
    commits a [40 x 40] box.  For a shape at [(-30, -30, 20, 20)] it
    commits a [-40 x -40] box. *)
Theorem updateBounds_off_origin :
  minX (envelope one (pointOf 0 0) [rectOf 10 10 20 20]) = ofZ 10
  /\ maxX (envelope one (pointOf 0 0) [rectOf 10 10 20 20]) = ofZ 30
  /\ minY (envelope one (pointOf 0 0) [rectOf 10 10 20 20]) = ofZ 10
  /\ maxY (envelope one (pointOf 0 0) [rectOf 10 10 20 20]) = ofZ 30
  /\ updateBounds (stageWith [rectOf 10 10 20 20]) None None initialBounds
     = Committed (boundsOf 0 0 40 40)
  /\ updateBounds (stageWith [rectOf (-30) (-30) 20 20]) None None
       initialBounds
     = Committed (boundsOf 0 0 (-40) (-40)).
Proof.
  repeat (split; [point_compute|]).
  split.
  - vm_compute. apply Committed_same. vm_compute. reflexivity.
  - vm_compute. apply Committed_same. vm_compute. reflexivity.
Qed.

(** ** Order reasoning on canonical rationals *)

Lemma this_plus (a b : Qc) : (this (a + b)%Qc == this a + this b)%Q.
Proof. apply Qred_correct. Qed.

Lemma this_mult (a b : Qc) : (this (a * b)%Qc == this a * this b)%Q.
Proof. apply Qred_correct. Qed.

Lemma this_opp (a : Qc) : (this (- a)%Qc == - this a)%Q.
Proof. apply Qred_correct. Qed.

Lemma this_inv (a : Qc) : (this (/ a)%Qc == / this a)%Q.
Proof. apply Qred_correct. Qed.

Lemma this_Q2Qc (q : Q) : (this (Q2Qc q) == q)%Q.
Proof. apply Qred_correct. Qed.

Lemma Qc_half (a : Qc) : (a / Q2Qc 2)%Qc = (a * Q2Qc (1 # 2))%Qc.
Proof.
  unfold Qcdiv. apply f_equal. apply Qc_is_canon. reflexivity.
Qed.

(** Case analysis on a number that a hypothesis of the goal requires to
    be finite: only the finite case remains. *)
Ltac fin_only v :=
  destruct v as [| |v|]; cbn [positive finite]; try tauto.

(** Proves an equation of the field of canonical rationals whose
    divisors are positive by hypothesis. *)
Ltac qc_field :=
  rewrite ?Qc_two; field;
  repeat split;
  try (apply Qc_pos_nonzero; assumption); try assumption; try discriminate.

(** Moves an order goal on canonical rationals to the rationals. *)
Ltac qc2q :=
  rewrite ?Qc_half in *;
  unfold Qcle, Qclt, Qcdiv, Qcminus in *;
  repeat (rewrite ?this_plus, ?this_mult, ?this_opp, ?this_inv,
            ?this_Q2Qc in *).

Lemma Qcle_div_r (a m c : Qc) :
  (Q2Qc 0 < m)%Qc -> (a * m <= c)%Qc -> (a <= c / m)%Qc.
Proof.
  intros Hm H.
  apply Qcmult_lt_0_le_reg_r with m; [exact Hm|].
  replace (c / m * m)%Qc with c
    by (field; now apply Qc_pos_nonzero).
  exact H.
Qed.

(** The fit scale of positive finite dimensions, with the facts that make
    it a fit: the scaled box is within the container on both axes and
    touches it on one. *)
Lemma calculateScale_value (bw bh cw ch : Qc) :
  (Q2Qc 0 < bw)%Qc -> (Q2Qc 0 < bh)%Qc ->
  (Q2Qc 0 < cw)%Qc -> (Q2Qc 0 < ch)%Qc ->
  exists m : Qc,
    (Q2Qc 0 < m)%Qc
    /\ calculateScale {| d_width := Fin bw; d_height := Fin bh |}
                      {| d_width := Fin cw; d_height := Fin ch |}
       = {| sx := Fin m; sy := Fin m |}
    /\ (bw * m <= cw)%Qc /\ (bh * m <= ch)%Qc
    /\ ((bw * m)%Qc = cw \/ (bh * m)%Qc = ch).
Proof.
  intros Hbw Hbh Hcw Hch. unfold calculateScale. cbn [d_width d_height].
  rewrite !div_Fin_pos by assumption.
  pose proof (Qcdiv_pos _ _ Hcw Hbw) as Hx.
  pose proof (Qcdiv_pos _ _ Hch Hbh) as Hy.
  pose proof (Qc_pos_nonzero _ Hbw) as Nbw.
  pose proof (Qc_pos_nonzero _ Hbh) as Nbh.
  assert (Ew : (bw * (cw / bw))%Qc = cw) by (field; assumption).
  assert (Eh : (bh * (ch / bh))%Qc = ch) by (field; assumption).
  unfold min, leb.
  destruct (Qcleb (cw / bw) (ch / bh)) eqn:E;
    [apply Qcleb_le in E | apply Qcleb_gt in E; apply Qclt_le_weak in E].
  - exists (cw / bw)%Qc. rewrite eqb_zero_pos by assumption.
    repeat split; auto.
    + rewrite Ew. apply Qcle_refl.
    + assert (L : (bh * (cw / bw) <= bh * (ch / bh))%Qc).
      { rewrite !(Qcmult_comm bh).
        apply Qcmult_le_compat_r; [exact E|now apply Qclt_le_weak]. }
      now rewrite Eh in L.
  - exists (ch / bh)%Qc. rewrite eqb_zero_pos by assumption.
    repeat split; auto.
    + assert (L : (bw * (ch / bh) <= bw * (cw / bw))%Qc).
      { rewrite !(Qcmult_comm bw).
        apply Qcmult_le_compat_r; [exact E|now apply Qclt_le_weak]. }
      now rewrite Ew in L.
    + rewrite Eh. apply Qcle_refl.
Qed.

(** X1.  The fit scale fits, in exact arithmetic: on positive finite
    dimensions the bounds scaled by [calculateScale] are no wider and no
    higher than the container, and as wide or as high as it on one axis.
    The source divides and multiplies in binary64 and meets these
    relations up to rounding (a ratio that underflows to [0] aside). *)
Theorem calculateScale_fits (bounds container : Dimensions) :
  positive (d_width bounds) -> positive (d_height bounds) ->
  positive (d_width container) -> positive (d_height container) ->
  (d_width bounds * sx (calculateScale bounds container)
   <=? d_width container) = true
  /\ (d_height bounds * sx (calculateScale bounds container)
      <=? d_height container) = true
  /\ (d_width bounds * sx (calculateScale bounds container)
      = d_width container
      \/ d_height bounds * sx (calculateScale bounds container)
         = d_height container).
Proof.
  destruct bounds as [bw bh], container as [cw ch].
  cbn [d_width d_height].
  fin_only bw. fin_only bh. fin_only cw. fin_only ch.
  intros Hbw Hbh Hcw Hch.
  destruct (calculateScale_value bw bh cw ch Hbw Hbh Hcw Hch)
    as (m & Hm & E & Lw & Lh & T).
  rewrite E. cbn [sx mul leb]. rewrite !Qcleb_le.
  repeat split; auto.
  destruct T as [T|T]; [left|right]; now rewrite T.
Qed.

Lemma calculateScale_fits_witness :
  (d_width (dimsOf 1000 500)
   * sx (calculateScale (dimsOf 1000 500) (dimsOf 800 300))
   <=? d_width (dimsOf 800 300)) = true.
Proof.
  apply (calculateScale_fits (dimsOf 1000 500) (dimsOf 800 300));
    reflexivity.
Defined.

Lemma calculateScale_never_zero_or_NaN_witness :
  sx (calculateScale (dimsOf 1000 500) (dimsOf 800 300)) <> zero.
Proof.
  apply (calculateScale_never_zero_or_NaN (dimsOf 1000 500) (dimsOf 800 300));
    reflexivity.
Defined.

Lemma calculateScale_zero_container_witness :
  calculateScale (dimsOf 1000 500) (dimsOf 0 300) = {| sx := one; sy := one |}.
Proof.
  apply (calculateScale_zero_container (dimsOf 1000 500) (dimsOf 0 300)).
  - reflexivity.
  - reflexivity.
  - left. split; reflexivity.
Defined.

Lemma Qcle_div_l (a m c : Qc) :
  (Q2Qc 0 < m)%Qc -> (c <= a * m)%Qc -> (c / m <= a)%Qc.
Proof.
  intros Hm H.
  apply Qcmult_lt_0_le_reg_r with m; [exact Hm|].
  replace (c / m * m)%Qc with c
    by (field; now apply Qc_pos_nonzero).
  exact H.
Qed.

(** The visible rectangle of the initial transform at scale [m]: the
    bounds with the same margin on both sides of each axis. *)
Lemma initialRect_value (x y bw bh cw ch m : Qc) :
  (Q2Qc 0 < m)%Qc ->
  calculateVisibleRect
    (calculateInitialPosition
       {| bx := Fin x; by_ := Fin y; b_width := Fin bw; b_height := Fin bh |}
       {| d_width := Fin cw; d_height := Fin ch |} (Fin m))
    (Fin m) {| d_width := Fin cw; d_height := Fin ch |}
  = {| left := Fin (x - (cw / m - bw) / Q2Qc 2)%Qc;
       top := Fin (y - (ch / m - bh) / Q2Qc 2)%Qc;
       right := Fin (x + bw + (cw / m - bw) / Q2Qc 2)%Qc;
       bottom := Fin (y + bh + (ch / m - bh) / Q2Qc 2)%Qc |}.
Proof.
  intro Hm. unfold calculateVisibleRect, calculateInitialPosition.
  fin_arith. f_equal; fin_field.
Qed.

(** X4.  The reset transform centres the content, in exact arithmetic:
    on positive finite dimensions the rectangle visible under
    [getResetTransform] contains the bounds, with equal margins left and
    right and equal margins above and below.  The source computes the
    rectangle in binary64 and meets these relations up to rounding. *)
Theorem reset_transform_centers (bounds : Bounds) (container : Dimensions) :
  positive (b_width bounds) -> positive (b_height bounds) ->
  finite (bx bounds) -> finite (by_ bounds) ->
  positive (d_width container) -> positive (d_height container) ->
  let r := calculateVisibleRect
             (snd (getResetTransform bounds container))
             (fst (getResetTransform bounds container)) container in
  (left r <=? bx bounds) = true
  /\ (bx bounds + b_width bounds <=? right r) = true
  /\ (top r <=? by_ bounds) = true
  /\ (by_ bounds + b_height bounds <=? bottom r) = true
  /\ bx bounds - left r = right r - (bx bounds + b_width bounds)
  /\ by_ bounds - top r = bottom r - (by_ bounds + b_height bounds).
Proof.
  destruct bounds as [x y bw bh], container as [cw ch].
  cbn [bx by_ b_width b_height d_width d_height].
  fin_only x. fin_only y. fin_only bw. fin_only bh. fin_only cw. fin_only ch.
  intros Hbw Hbh _ _ Hcw Hch.
  destruct (calculateScale_value bw bh cw ch Hbw Hbh Hcw Hch)
    as (m & Hm & E & Lw & Lh & _).
  unfold getResetTransform, dims. cbn [fst snd b_width b_height].
  rewrite E. cbn [sx]. rewrite initialRect_value by assumption.
  cbn [left top right bottom add sub neg leb]. rewrite !Qcleb_le.
  pose proof (Qcle_div_r _ _ _ Hm Lw) as Kw.
  pose proof (Qcle_div_r _ _ _ Hm Lh) as Kh.
  remember (cw / m)%Qc as kw. remember (ch / m)%Qc as kh.
  repeat split; try (qc2q; lra); f_equal; rewrite ?Qc_two; field;
    discriminate.
Qed.

Lemma reset_transform_centers_witness :
  (left (calculateVisibleRect
           (snd (getResetTransform (boundsOf 10 20 1000 500) (dimsOf 800 300)))
           (fst (getResetTransform (boundsOf 10 20 1000 500) (dimsOf 800 300)))
           (dimsOf 800 300))
   <=? bx (boundsOf 10 20 1000 500)) = true.
Proof.
  apply (reset_transform_centers (boundsOf 10 20 1000 500) (dimsOf 800 300));
    try reflexivity; exact I.
Defined.

(** ** Clamping: limits and the visible rectangle *)

Lemma clamp_inside (lo hi x : num) :
  (lo <=? x) = true -> (x <=? hi) = true -> max lo (min hi x) = x.
Proof.
  destruct lo, hi, x; simpl; try discriminate; try reflexivity;
    intros H1 H2; try apply Qcleb_le in H1; try apply Qcleb_le in H2;
    qc_cases; simpl; qc_cases; qc_order.
Qed.


Lemma clamp_Fin (lo hi : Qc) (x : num) :
  x <> NaN -> (lo <= hi)%Qc ->
  exists r : Qc,
    max (Fin lo) (min (Fin hi) x) = Fin r /\ (lo <= r)%Qc /\ (r <= hi)%Qc.
Proof.
  intros Hx L. destruct x as [| |x|]; try congruence; simpl.
  - exists lo. repeat split; auto. apply Qcle_refl.
  - destruct (Qcleb hi x) eqn:E1; simpl.
    + apply Qcleb_le in L as L'. rewrite L'.
      exists hi. repeat split; auto. apply Qcle_refl.
    + apply Qcleb_gt in E1.
      destruct (Qcleb lo x) eqn:E2;
        [apply Qcleb_le in E2 | apply Qcleb_gt in E2].
      * exists x. repeat split; auto. now apply Qclt_le_weak.
      * exists lo. repeat split; auto. apply Qcle_refl.
  - apply Qcleb_le in L as L'. rewrite L'.
    exists hi. repeat split; auto. apply Qcle_refl.
Qed.

(** The clamp limits on finite inputs, in terms of the initial visible
    rectangle. *)
Lemma clampLimits_value (x y bw bh cw ch m s : Qc) :
  (Q2Qc 0 < m)%Qc ->
  calculateScale {| d_width := Fin bw; d_height := Fin bh |}
                 {| d_width := Fin cw; d_height := Fin ch |}
  = {| sx := Fin m; sy := Fin m |} ->
  clampLimits (Fin s) {| d_width := Fin cw; d_height := Fin ch |}
    {| bx := Fin x; by_ := Fin y; b_width := Fin bw; b_height := Fin bh |}
  = ((Fin (- (x + bw + (cw / m - bw) / Q2Qc 2) * s + cw)%Qc,
      Fin (- (x - (cw / m - bw) / Q2Qc 2) * s)%Qc),
     (Fin (- (y + bh + (ch / m - bh) / Q2Qc 2) * s + ch)%Qc,
      Fin (- (y - (ch / m - bh) / Q2Qc 2) * s)%Qc)).
Proof.
  intros Hm E. unfold clampLimits, dims. cbn [b_width b_height].
  rewrite E. cbn [sx]. rewrite initialRect_value by assumption.
  reflexivity.
Qed.

(** The distance between the limits of an axis of length [c]:
    [(c / m) * s - c], which has the sign of [s - m]. *)
Lemma limits_gap (a b c m s : Qc) :
  (Q2Qc 0 < m)%Qc -> (Q2Qc 0 < c)%Qc ->
  ((m <= s)%Qc ->
   (- (a + b + (c / m - b) / Q2Qc 2) * s + c
    <= - (a - (c / m - b) / Q2Qc 2) * s)%Qc)
  /\ ((s < m)%Qc ->
      (- (a - (c / m - b) / Q2Qc 2) * s
       < - (a + b + (c / m - b) / Q2Qc 2) * s + c)%Qc).
Proof.
  intros Hm Hc.
  pose proof (Qcdiv_pos _ _ Hc Hm) as Hk.
  assert (Ek : ((c / m) * m)%Qc = c) by (field; now apply Qc_pos_nonzero).
  remember (c / m)%Qc as k.
  assert (Ek' : (this k * this m == this c)%Q)
    by (rewrite <- this_mult, Ek; reflexivity).
  split; intro Hs; qc2q; nra.
Qed.

(** X5.  A position inside the clamp limits is not moved by
    [clampPosition]. *)
Theorem clampPosition_fixes_inside
  (p : Point) (scale : num) (container : Dimensions) (bounds : Bounds) :
  (fst (fst (clampLimits scale container bounds)) <=? px p) = true ->
  (px p <=? snd (fst (clampLimits scale container bounds))) = true ->
  (fst (snd (clampLimits scale container bounds)) <=? py p) = true ->
  (py p <=? snd (snd (clampLimits scale container bounds))) = true ->
  clampPosition p scale container bounds = p.
Proof.
  unfold clampPosition.
  destruct (clampLimits scale container bounds) as [[loX hiX] [loY hiY]].
  cbn [fst snd]. intros H1 H2 H3 H4.
  rewrite !clamp_inside by assumption. now destruct p.
Qed.

Lemma clampPosition_fixes_inside_witness :
  clampPosition (pointOf (-100) (-50)) (ofZ 3) (dimsOf 100 100)
    (boundsOf 0 0 100 100)
  = pointOf (-100) (-50).
Proof.
  apply (clampPosition_fixes_inside (pointOf (-100) (-50)) (ofZ 3)
           (dimsOf 100 100) (boundsOf 0 0 100 100));
    vm_compute; reflexivity.
Defined.

(** X6.  In exact arithmetic, on positive finite dimensions and at a
    finite scale not below the fit scale, the clamp limits of each axis
    are ordered and the clamped position lies between them.  The source
    computes the limits in binary64 and meets the ordering up to rounding:
    at the fit scale itself, where the two limits of an axis coincide in
    exact arithmetic, the computed ones can come out in either order. *)
Theorem clampPosition_within_limits
  (p : Point) (scale : num) (container : Dimensions) (bounds : Bounds) :
  positive (b_width bounds) -> positive (b_height bounds) ->
  finite (bx bounds) -> finite (by_ bounds) ->
  positive (d_width container) -> positive (d_height container) ->
  finite scale ->
  (sx (calculateScale (dims bounds) container) <=? scale) = true ->
  px p <> NaN -> py p <> NaN ->
  (fst (fst (clampLimits scale container bounds))
   <=? px (clampPosition p scale container bounds)) = true
  /\ (px (clampPosition p scale container bounds)
      <=? snd (fst (clampLimits scale container bounds))) = true
  /\ (fst (snd (clampLimits scale container bounds))
      <=? py (clampPosition p scale container bounds)) = true
  /\ (py (clampPosition p scale container bounds)
      <=? snd (snd (clampLimits scale container bounds))) = true.
Proof.
  destruct bounds as [x y bw bh], container as [cw ch].
  cbn [bx by_ b_width b_height d_width d_height].
  fin_only x. fin_only y. fin_only bw. fin_only bh. fin_only cw. fin_only ch.
  destruct scale as [| |s|]; cbn [finite]; try tauto.
  intros Hbw Hbh _ _ Hcw Hch _ Hfit Hpx Hpy.
  destruct (calculateScale_value bw bh cw ch Hbw Hbh Hcw Hch)
    as (m & Hm & E & _).
  unfold dims in Hfit. cbn [b_width b_height] in Hfit.
  rewrite E in Hfit. cbn [sx leb] in Hfit. apply Qcleb_le in Hfit.
  unfold clampPosition. rewrite (clampLimits_value x y bw bh cw ch m s Hm E).
  cbn [fst snd px py].
  destruct (limits_gap x bw cw m s Hm Hcw) as [Gx _].
  destruct (limits_gap y bh ch m s Hm Hch) as [Gy _].
  destruct (clamp_Fin _ _ (px p) Hpx (Gx Hfit)) as (rx & -> & Lx & Ux).
  destruct (clamp_Fin _ _ (py p) Hpy (Gy Hfit)) as (ry & -> & Ly & Uy).
  cbn [leb]. rewrite !Qcleb_le. auto.
Qed.

Lemma clampPosition_within_limits_witness :
  (px (clampPosition (pointOf 70 (-500)) (ofZ 3) (dimsOf 100 100)
         (boundsOf 0 0 100 100))
   <=? snd (fst (clampLimits (ofZ 3) (dimsOf 100 100) (boundsOf 0 0 100 100))))
  = true.
Proof.
  apply (clampPosition_within_limits (pointOf 70 (-500)) (ofZ 3)
           (dimsOf 100 100) (boundsOf 0 0 100 100));
    try reflexivity; try exact I; discriminate.
Defined.



(** X8.  In exact arithmetic, on positive finite dimensions and at a
    finite scale not below the fit scale, the rectangle visible at a
    clamped position stays inside the rectangle visible under the initial
    (fit) transform.  The source computes both rectangles in binary64 and
    meets the containment up to rounding. *)
Theorem clamped_view_within_initial_view
  (p : Point) (scale : num) (container : Dimensions) (bounds : Bounds) :
  positive (b_width bounds) -> positive (b_height bounds) ->
  finite (bx bounds) -> finite (by_ bounds) ->
  positive (d_width container) -> positive (d_height container) ->
  finite scale ->
  (sx (calculateScale (dims bounds) container) <=? scale) = true ->
  px p <> NaN -> py p <> NaN ->
  let fit := sx (calculateScale (dims bounds) container) in
  let initialRect :=
    calculateVisibleRect (calculateInitialPosition bounds container fit)
      fit container in
  let v :=
    calculateVisibleRect (clampPosition p scale container bounds)
      scale container in
  (left initialRect <=? left v) = true
  /\ (right v <=? right initialRect) = true
  /\ (top initialRect <=? top v) = true
  /\ (bottom v <=? bottom initialRect) = true.
Proof.
  destruct bounds as [x y bw bh], container as [cw ch].
  cbn [bx by_ b_width b_height d_width d_height].
  fin_only x. fin_only y. fin_only bw. fin_only bh. fin_only cw. fin_only ch.
  destruct scale as [| |s|]; cbn [finite]; try tauto.
  intros Hbw Hbh _ _ Hcw Hch _ Hfit Hpx Hpy.
  destruct (calculateScale_value bw bh cw ch Hbw Hbh Hcw Hch)
    as (m & Hm & E & _).
  unfold dims in *. cbn [b_width b_height] in *.
  rewrite E in *. cbn [sx leb] in Hfit. apply Qcleb_le in Hfit.
  assert (Hs : (Q2Qc 0 < s)%Qc) by (eapply Qclt_le_trans; eassumption).
  cbn zeta. cbn [sx]. rewrite initialRect_value by assumption.
  unfold clampPosition. rewrite (clampLimits_value x y bw bh cw ch m s Hm E).
  destruct (limits_gap x bw cw m s Hm Hcw) as [Gx _].
  destruct (limits_gap y bh ch m s Hm Hch) as [Gy _].
  destruct (clamp_Fin _ _ (px p) Hpx (Gx Hfit)) as (rx & -> & Lx & Ux).
  destruct (clamp_Fin _ _ (py p) Hpy (Gy Hfit)) as (ry & -> & Ly & Uy).
  unfold calculateVisibleRect. fin_arith. cbn [leb]. rewrite !Qcleb_le.
  pose proof (Qc_pos_nonzero _ Hs) as Ns.
  repeat split.
  - apply Qcle_div_r; [assumption|]. qc2q. lra.
  - replace (- rx / s + cw / s)%Qc with ((- rx + cw) / s)%Qc
      by (field; assumption).
    apply Qcle_div_l; [assumption|]. qc2q. lra.
  - apply Qcle_div_r; [assumption|]. qc2q. lra.
  - replace (- ry / s + ch / s)%Qc with ((- ry + ch) / s)%Qc
      by (field; assumption).
    apply Qcle_div_l; [assumption|]. qc2q. lra.
Qed.

Lemma clamped_view_within_initial_view_witness :
  (right (calculateVisibleRect
            (clampPosition (pointOf 70 (-500)) (ofZ 3) (dimsOf 100 100)
               (boundsOf 0 0 100 100))
            (ofZ 3) (dimsOf 100 100))
   <=? right (calculateVisibleRect
                (calculateInitialPosition (boundsOf 0 0 100 100)
                   (dimsOf 100 100)
                   (sx (calculateScale (dims (boundsOf 0 0 100 100))
                          (dimsOf 100 100))))
                (sx (calculateScale (dims (boundsOf 0 0 100 100))
                       (dimsOf 100 100)))
                (dimsOf 100 100))) = true.
Proof.
  apply (clamped_view_within_initial_view (pointOf 70 (-500)) (ofZ 3)
           (dimsOf 100 100) (boundsOf 0 0 100 100));
    try reflexivity; try exact I; discriminate.
Defined.

(** ** The resize adapter: further properties *)

Lemma neqb_refl (a : num) : a <> NaN -> (a !== a) = false.
Proof.
  destruct a; try congruence; intros _; unfold neqb; simpl; auto.
  now rewrite Qc_eq_bool_refl.
Qed.

Lemma updateTransform_previousContainer options container st :
  previousContainer (updateTransform options container st) = container.
Proof. now rewrite updateTransform_target. Qed.

(** X9.  Once the adapter has run for a container, running it again for
    the same container changes nothing (the container dimensions being
    numbers). *)
Theorem resizeEffect_idempotent options container st :
  d_width container <> NaN -> d_height container <> NaN ->
  resizeEffect options container (resizeEffect options container st)
  = resizeEffect options container st.
Proof.
  intros Hw Hh. unfold resizeEffect at 2 3.
  destruct ((d_width container !== d_width (previousContainer st))
            || (d_height container !== d_height (previousContainer st)))
    eqn:Changed.
  - unfold resizeEffect.
    rewrite updateTransform_previousContainer.
    now rewrite !neqb_refl by assumption.
  - unfold resizeEffect. now rewrite Changed.
Qed.

Lemma resizeEffect_idempotent_witness :
  resizeEffect (exampleOptions true) (dimsOf 100 100)
    (resizeEffect (exampleOptions true) (dimsOf 100 100)
       (exampleStage 2 100 0 200 100))
  = resizeEffect (exampleOptions true) (dimsOf 100 100)
      (exampleStage 2 100 0 200 100).
Proof.
  apply (resizeEffect_idempotent (exampleOptions true) (dimsOf 100 100)
           (exampleStage 2 100 0 200 100));
    discriminate.
Defined.

(** At the fit scale every position whose coordinates are numbers is
    clamped to the initial position. *)
Lemma clampPosition_at_fit (x y bw bh cw ch m : Qc) (p : Point) :
  (Q2Qc 0 < m)%Qc ->
  calculateScale {| d_width := Fin bw; d_height := Fin bh |}
                 {| d_width := Fin cw; d_height := Fin ch |}
  = {| sx := Fin m; sy := Fin m |} ->
  px p <> NaN -> py p <> NaN ->
  clampPosition p (Fin m) {| d_width := Fin cw; d_height := Fin ch |}
    {| bx := Fin x; by_ := Fin y; b_width := Fin bw; b_height := Fin bh |}
  = calculateInitialPosition
      {| bx := Fin x; by_ := Fin y; b_width := Fin bw; b_height := Fin bh |}
      {| d_width := Fin cw; d_height := Fin ch |} (Fin m).
Proof.
  intros Hm E Hx Hy. unfold clampPosition.
  rewrite (clampLimits_value x y bw bh cw ch m m Hm E).
  replace (- (x - (cw / m - bw) / Q2Qc 2) * m)%Qc
    with (- (x + bw + (cw / m - bw) / Q2Qc 2) * m + cw)%Qc
    by qc_field.
  replace (- (y - (ch / m - bh) / Q2Qc 2) * m)%Qc
    with (- (y + bh + (ch / m - bh) / Q2Qc 2) * m + ch)%Qc
    by qc_field.
  rewrite !clamp_collapse by assumption.
  unfold calculateInitialPosition. fin_arith.
  f_equal; fin_field.
Qed.

(** X10.  In exact arithmetic, a stage at the reset transform of its
    previous container is at the reset transform of the new container
    after a resize, whether the position is clamped or not.  The source
    reaches the new scale and position by a different sequence of binary64
    operations than [getResetTransform] and meets the equality up to
    rounding. *)
Theorem resize_keeps_reset_transform options container st :
  positiveDims (dims (bounds st)) ->
  finite (bx (bounds st)) -> finite (by_ (bounds st)) ->
  positiveDims (previousContainer st) -> positiveDims container ->
  (scale st, position st)
  = getResetTransform (bounds st) (previousContainer st) ->
  (scale (resizeEffect options container st),
   position (resizeEffect options container st))
  = getResetTransform (bounds st) container.
Proof.
  destruct st as [s pos dr b prev lm lz].
  cbn [scale position bounds previousContainer].
  destruct b as [x y bw bh], prev as [pw ph], container as [cw ch].
  unfold positiveDims, dims.
  cbn [bx by_ b_width b_height d_width d_height].
  fin_only x. fin_only y. fin_only bw. fin_only bh.
  fin_only pw. fin_only ph. fin_only cw. fin_only ch.
  intros [Hbw Hbh] _ _ [Hpw Hph] [Hcw Hch] Hreset.
  destruct (calculateScale_value bw bh pw ph Hbw Hbh Hpw Hph)
    as (mp & Hmp & Ep & _).
  destruct (calculateScale_value bw bh cw ch Hbw Hbh Hcw Hch)
    as (mn & Hmn & En & _).
  unfold getResetTransform, dims in *. cbn [b_width b_height] in *.
  rewrite Ep in Hreset. rewrite En. cbn [sx] in *.
  unfold calculateInitialPosition in Hreset.
  revert Hreset. fin_arith. intro Hreset.
  injection Hreset as -> ->.
  pose proof (Qc_pos_nonzero _ Hmp) as Nmp.
  unfold resizeEffect. cbn [previousContainer d_width d_height].
  destruct ((Fin cw !== Fin pw) || (Fin ch !== Fin ph)) eqn:Changed.
  - rewrite updateTransform_target.
    unfold resizeTarget, centerWorldPoint, dims.
    cbn [scale position bounds previousContainer b_width b_height].
    rewrite Ep, En. fin_arith.
    replace (mn * (mp / mp))%Qc with mn by (field; assumption).
    unfold setPosition, clampAndSetPosition.
    cbn [setPreviousContainer setScale _setPosition scale position bounds].
    destruct (opt_clampPosition options);
      cbn [negb setPreviousContainer setScale _setPosition scale position
             bounds].
    + rewrite (clampPosition_at_fit x y bw bh cw ch mn _ Hmn En)
        by discriminate.
      reflexivity.
    + unfold calculateInitialPosition. fin_arith.
      f_equal. f_equal; fin_field.
  - apply orb_false_iff in Changed. destruct Changed as [Hw Hh].
    apply neqb_false in Hw. apply neqb_false in Hh.
    injection Hw as ->. injection Hh as ->.
    rewrite Ep in En. injection En as ->.
    unfold calculateInitialPosition. fin_arith. reflexivity.
Qed.

Lemma resize_keeps_reset_transform_witness :
  (scale (resizeEffect (exampleOptions true) (dimsOf 300 100)
            (exampleStage 1 50 0 200 100)),
   position (resizeEffect (exampleOptions true) (dimsOf 300 100)
               (exampleStage 1 50 0 200 100)))
  = getResetTransform (bounds (exampleStage 1 50 0 200 100)) (dimsOf 300 100).
Proof.
  apply (resize_keeps_reset_transform (exampleOptions true) (dimsOf 300 100)
           (exampleStage 1 50 0 200 100)).
  - split; reflexivity.
  - exact I.
  - exact I.
  - split; reflexivity.
  - split; reflexivity.
  - apply pair_equal_spec. split; point_compute.
Defined.

(** ** The drag controller: properties *)

Lemma setPosition_drag_fields options container r p s st :
  isDragging (setPosition options container r p s st) = isDragging st
  /\ lastMousePos (setPosition options container r p s st) = lastMousePos st.
Proof.
  unfold setPosition, clampAndSetPosition.
  now destruct s, (negb (opt_clampPosition options)).
Qed.

Ltac drag_fields :=
  match goal with
  | |- context [setPosition ?o ?c ?r ?p ?s ?t] =>
      destruct (setPosition_drag_fields o c r p s t) as [-> ->]
  end.

Lemma step_dragConsistent options Math_sqrt loading w ev :
  dragConsistent (w_stage w) ->
  dragConsistent (w_stage (step options Math_sqrt loading w ev)).
Proof.
  unfold dragConsistent. destruct w as [c st].
  destruct ev as [c'|e|e|  |e|key now|b| ]; cbn [step w_stage]; intro H.
  - unfold resizeEffect. destruct (_ || _); [|exact H].
    rewrite updateTransform_target.
    cbn [setPreviousContainer isDragging lastMousePos].
    drag_fields. exact H.
  - unfold handleDragStart.
    destruct (me_stage e), (me_pointer e); cbn [negb]; auto.
  - unfold handleDragMove.
    destruct (isDragging st) eqn:D, (lastMousePos st) eqn:L;
      try (rewrite ?D, ?L; congruence).
    destruct (me_stage e), (me_pointer e); cbn [negb];
      try (rewrite ?D, ?L; congruence).
    drag_fields.
    cbn [setLastMousePos isDragging lastMousePos]. exact D.
  - reflexivity.
  - unfold handleWheel.
    destruct (wheelCallback options Math_sqrt loading e st) as [calls t] eqn:E.
    cbn [setLastZoomTime isDragging lastMousePos].
    unfold wheelCallback in E.
    destruct loading; [injection E as <- _; exact H|].
    destruct (we_stage e); cbn [negb] in E; [|injection E as <- _; exact H].
    destruct (we_pointer e); [|injection E as <- _; exact H].
    destruct (we_ctrlKey e || we_metaKey e).
    + injection E as <- _. cbn [fold_left applyCall].
      rewrite handleZoom_target.
      drag_fields. exact H.
    + destruct (negb (we_intentional e) && _); injection E as <- _;
        cbn [fold_left applyCall]; [exact H|].
      drag_fields. exact H.
  - unfold handleKeyUp. now destruct (_ || _).
  - unfold commitBounds, autoResetEffect.
    destruct (sameBounds b (bounds st)); [exact H|].
    destruct (_ || _); [exact H|].
    unfold resetZoom. cbn [getResetTransform].
    drag_fields. exact H.
  - unfold resetZoom. cbn [getResetTransform].
    drag_fields. exact H.
Qed.

(** X11.  Along every run of events from the first render, the stage is
    flagged as dragging exactly when a last pointer sample is held. *)
Theorem drag_state_consistent options Math_sqrt loading container now evs :
  dragConsistent
    (w_stage
       (run options Math_sqrt loading
          {| w_container := container;
             w_stage := initialStage container now |} evs)).
Proof.
  unfold run.
  assert (G : forall w, dragConsistent (w_stage w) ->
                        dragConsistent
                          (w_stage
                             (fold_left (step options Math_sqrt loading)
                                evs w))).
  { induction evs as [|ev evs IH]; intros w H; [exact H|].
    cbn [fold_left]. apply IH. now apply step_dragConsistent. }
  apply G. reflexivity.
Qed.

Lemma telescope (a b c d : num) :
  finite a -> finite b -> finite c -> finite d ->
  a + (b - c) + (d - b) = a + (d - c).
Proof.
  destruct a, b, c, d; try contradiction. intros _ _ _ _.
  cbn [add sub neg]. apply f_equal. ring.
Qed.

Lemma add_sub_self (a b : num) : finite a -> finite b -> a + (b - b) = a.
Proof.
  destruct a, b; try contradiction. intros _ _.
  cbn [add sub neg]. apply f_equal. ring.
Qed.

Lemma finite_add_sub (a b c : num) :
  finite a -> finite b -> finite c -> finite (a + (b - c)).
Proof. destruct a, b, c; try contradiction. now cbn. Qed.

Lemma last_cons (A : Type) (p q : A) (ps : list A) :
  last (p :: ps) q = last ps p.
Proof.
  revert p q. induction ps as [|a ps IH]; intros p q; [reflexivity|].
  change (last (p :: a :: ps) q) with (last (a :: ps) q).
  now rewrite (IH a q), (IH a p).
Qed.

Lemma last_finite (ps : list Point) (p : Point) :
  Forall finitePoint ps -> finitePoint p -> finitePoint (last ps p).
Proof.
  intro H. revert p. induction H as [|a ps Ha _ IH]; intros p Hp; [exact Hp|].
  rewrite last_cons. now apply IH.
Qed.

Lemma last_snoc (A : Type) (ps : list A) (p q : A) : last (ps ++ [p]) q = p.
Proof.
  revert q. induction ps as [|a ps IH]; intro q; [reflexivity|].
  cbn [app]. rewrite last_cons. apply IH.
Qed.

Lemma dragMoves_from options container ps :
  opt_clampPosition options = false ->
  Forall finitePoint ps ->
  forall st q,
    isDragging st = true -> lastMousePos st = Some q ->
    finitePoint q -> finitePoint (position st) ->
    isDragging (dragMoves options container ps st) = true
    /\ lastMousePos (dragMoves options container ps st) = Some (last ps q)
    /\ scale (dragMoves options container ps st) = scale st
    /\ px (position (dragMoves options container ps st))
       = px (position st) + (px (last ps q) - px q)
    /\ py (position (dragMoves options container ps st))
       = py (position st) + (py (last ps q) - py q).
Proof.
  intros Hclamp Hps. induction Hps as [|p ps Hp Hps IH];
    intros st q D L Hq Hpos.
  - destruct Hq, Hpos. cbn [dragMoves fold_left last].
    rewrite !add_sub_self by assumption. auto.
  - cbn [dragMoves fold_left].
    set (st1 := handleDragMove options container st (mouseAt p) st).
    assert (E1 : st1 = _setPosition
                         {| px := px (position st) + (px p - px q);
                            py := py (position st) + (py p - py q) |}
                         (setScale (scale st)
                            (setLastMousePos (Some p) st))).
    { unfold st1, handleDragMove, mouseAt. cbn [me_stage me_pointer negb].
      rewrite D, L. unfold setPosition, clampAndSetPosition.
      now rewrite Hclamp. }
    destruct Hp as [Hpx Hpy], Hq as [Hqx Hqy], Hpos as [Hx Hy].
    assert (F1 : finitePoint (position st1)).
    { rewrite E1. cbn [_setPosition position px py]. split;
        now apply finite_add_sub. }
    change (fold_left
              (fun s p1 =>
                 handleDragMove options container s (mouseAt p1) s)
              ps st1) with (dragMoves options container ps st1).
    assert (D1 : isDragging st1 = true) by (rewrite E1; exact D).
    assert (L1 : lastMousePos st1 = Some p) by (rewrite E1; reflexivity).
    destruct (IH st1 p D1 L1 (conj Hpx Hpy) F1) as (D' & L' & S' & X' & Y').
    rewrite last_cons.
    repeat split; auto.
    + rewrite S', E1. reflexivity.
    + rewrite X', E1. cbn [_setPosition position px].
      apply telescope; auto.
      apply (last_finite ps p Hps (conj Hpx Hpy)).
    + rewrite Y', E1. cbn [_setPosition position py].
      apply telescope; auto.
      apply (last_finite ps p Hps (conj Hpx Hpy)).
Qed.

(** One move handled by the handler of a dragging render [r], with
    clamping off: it commits the position and scale of [r], displaced by
    the pointer's move from the last sample, and stores the pointer as the
    last sample. *)
Lemma handleDragMove_dragging options container r p q st :
  opt_clampPosition options = false ->
  isDragging r = true -> lastMousePos st = Some q ->
  handleDragMove options container r (mouseAt p) st
  = _setPosition
      {| px := px (position r) + (px p - px q);
         py := py (position r) + (py p - py q) |}
      (setScale (scale r) (setLastMousePos (Some p) st)).
Proof.
  intros Hclamp D L.
  unfold handleDragMove, mouseAt. cbn [me_stage me_pointer negb].
  rewrite D, L. unfold setPosition, clampAndSetPosition.
  now rewrite Hclamp.
Qed.

Lemma dragMovesWithin_last options container r ps :
  opt_clampPosition options = false ->
  isDragging r = true ->
  forall st q,
    lastMousePos st = Some q ->
    lastMousePos (dragMovesWithin options container r ps st)
    = Some (last ps q).
Proof.
  intros Hclamp D. induction ps as [|p ps IH]; intros st q L.
  - exact L.
  - cbn [dragMovesWithin fold_left].
    change (fold_left
              (fun s p1 =>
                 handleDragMove options container r (mouseAt p1) s)
              ps (handleDragMove options container r (mouseAt p) st))
      with (dragMovesWithin options container r ps
              (handleDragMove options container r (mouseAt p) st)).
    rewrite last_cons. apply IH.
    now rewrite (handleDragMove_dragging options container r p q st).
Qed.

(** X12.  With clamping off, a drag starts with the pointer at [p0] and
    moves it through [ps] and then to [p].  If a render takes place after
    every move, each move is handled by a handler that closes over the
    position the move before it committed, and the position ends displaced
    by [p - p0], the displacement of the pointer over the whole drag (in
    exact arithmetic, for finite coordinates; the source adds the
    displacements one by one in floating point and meets this up to
    rounding).  If instead all the moves are handled by the handler of the
    render that followed the start of the drag, the position ends
    displaced by [p - last ps p0] only, the displacement of the last move:
    [lastMousePos] is a ref and advances with every move, while the
    position is read from the closure, so the earlier displacements are
    lost.  The scale is unchanged in both cases. *)
Theorem drag_tracks_pointer options container p0 ps p st :
  opt_clampPosition options = false ->
  finitePoint p0 -> Forall finitePoint (ps ++ [p]) ->
  finitePoint (position st) ->
  let st0 := handleDragStart (mouseAt p0) st in
  let rendered := dragMoves options container (ps ++ [p]) st0 in
  let within := dragMovesWithin options container st0 (ps ++ [p]) st0 in
  (px (position rendered) = px (position st) + (px p - px p0)
   /\ py (position rendered) = py (position st) + (py p - py p0)
   /\ scale rendered = scale st)
  /\ (px (position within) = px (position st) + (px p - px (last ps p0))
      /\ py (position within) = py (position st) + (py p - py (last ps p0))
      /\ scale within = scale st).
Proof.
  intros Hclamp Hp0 Hps Hpos. cbn zeta. split.
  - destruct (dragMoves_from options container (ps ++ [p]) Hclamp Hps
                (handleDragStart (mouseAt p0) st) p0)
      as (_ & _ & S & X & Y); try reflexivity; try assumption.
    rewrite last_snoc in X, Y. rewrite S, X, Y. auto.
  - unfold dragMovesWithin. rewrite fold_left_app. cbn [fold_left].
    set (st0 := handleDragStart (mouseAt p0) st).
    set (mid := fold_left _ ps st0).
    assert (L : lastMousePos mid = Some (last ps p0)).
    { apply (dragMovesWithin_last options container st0 ps Hclamp);
        reflexivity. }
    rewrite (handleDragMove_dragging options container st0 p (last ps p0) mid
               Hclamp eq_refl L).
    cbn [_setPosition position px py scale]. auto.
Qed.

Lemma drag_tracks_pointer_witness :
  px (position
        (dragMoves (exampleOptions false) (dimsOf 100 100)
           [pointOf 12 10; pointOf 30 5]
           (handleDragStart (mouseAt (pointOf 10 10))
              (exampleStage 3 (-200) (-200) 100 100))))
  = ofZ (-180)
  /\ px (position
           (dragMovesWithin (exampleOptions false) (dimsOf 100 100)
              (handleDragStart (mouseAt (pointOf 10 10))
                 (exampleStage 3 (-200) (-200) 100 100))
              [pointOf 12 10; pointOf 30 5]
              (handleDragStart (mouseAt (pointOf 10 10))
                 (exampleStage 3 (-200) (-200) 100 100))))
     = ofZ (-182).
Proof.
  destruct (drag_tracks_pointer (exampleOptions false) (dimsOf 100 100)
              (pointOf 10 10) [pointOf 12 10] (pointOf 30 5)
              (exampleStage 3 (-200) (-200) 100 100))
    as ((X & _ & _) & (X' & _ & _)).
  - reflexivity.
  - split; exact I.
  - repeat constructor.
  - split; exact I.
  - cbn [app] in X, X'. split; [rewrite X|rewrite X']; point_compute.
Defined.

(** ** The wheel router: further properties *)

Lemma handleWheel_zoom_time options container Math_sqrt e st pointer :
  we_stage e = true -> we_pointer e = Some pointer ->
  we_ctrlKey e || we_metaKey e = true ->
  lastZoomTime (handleWheel options container Math_sqrt false e st)
  = we_now e.
Proof.
  intros Hs Hp Hk. unfold handleWheel, wheelCallback.
  rewrite Hs, Hp, Hk. reflexivity.
Qed.

(** X13.  A zoom gesture opens the suppression window: after a wheel
    event with a zoom modifier handled at time [t], a wheel event without
    modifier, not classified as intentional, that arrives within
    [zoomPanTransitionDelay] of [t] leaves the state as the zoom left
    it. *)
Theorem pan_after_zoom_discarded
  options container Math_sqrt ez ep st pointer :
  we_stage ez = true -> we_pointer ez = Some pointer ->
  we_ctrlKey ez || we_metaKey ez = true ->
  we_ctrlKey ep = false -> we_metaKey ep = false ->
  we_intentional ep = false ->
  (ofZ (we_now ep - we_now ez) <=? zoomPanTransitionDelay options) = true ->
  handleWheel options container Math_sqrt false ep
    (handleWheel options container Math_sqrt false ez st)
  = handleWheel options container Math_sqrt false ez st.
Proof.
  intros Hs Hp Hk Hc Hm Hi Hd.
  apply wheel_gesture_discarded; try assumption.
  now rewrite (handleWheel_zoom_time options container Math_sqrt ez st
                 pointer Hs Hp Hk).
Qed.

(** X14.  When the wheel callback pans: it calls the position setter
    exactly when the stage is not loading, the stage and its pointer
    position are available, no zoom modifier is held, and the gesture is
    intentional or the time since the last zoom is not within
    [zoomPanTransitionDelay]. *)
Theorem wheel_pans_iff options Math_sqrt loading e st :
  (exists p,
      In (SetPosition p)
         (fst (wheelCallback options Math_sqrt loading e st)))
  <-> (loading = false /\ we_stage e = true /\ we_pointer e <> None
       /\ we_ctrlKey e = false /\ we_metaKey e = false
       /\ (we_intentional e = true
           \/ (ofZ (we_now e - lastZoomTime st)
               <=? zoomPanTransitionDelay options) = false)).
Proof.
  unfold wheelCallback.
  destruct loading, (we_stage e), (we_pointer e) as [ptr|],
    (we_ctrlKey e), (we_metaKey e), (we_intentional e),
    (ofZ (we_now e - lastZoomTime st) <=? zoomPanTransitionDelay options);
    cbn [negb orb andb fst In];
    (split;
     [ intros (p & H); repeat destruct H as [H|H];
       try discriminate; try contradiction;
       repeat split; auto; discriminate
     | intros (H1 & H2 & H3 & H4 & H5 & H6);
       try congruence; try (destruct H6; congruence);
       eexists; right; left; reflexivity ]).
Qed.

Lemma pan_after_zoom_discarded_witness :
  handleWheel (exampleOptions true) (dimsOf 100 100) (fun x => x) false
    (panGesture 5 1050)
    (handleWheel (exampleOptions true) (dimsOf 100 100) (fun x => x) false
       (zoomGesture 10 1000) (exampleStage 3 (-200) (-200) 100 100))
  = handleWheel (exampleOptions true) (dimsOf 100 100) (fun x => x) false
      (zoomGesture 10 1000) (exampleStage 3 (-200) (-200) 100 100).
Proof.
  apply (pan_after_zoom_discarded (exampleOptions true) (dimsOf 100 100)
           (fun x => x) (zoomGesture 10 1000) (panGesture 5 1050)
           (exampleStage 3 (-200) (-200) 100 100) (pointOf 50 50));
    reflexivity.
Defined.

Lemma wheel_pans_iff_witness :
  exists p,
    In (SetPosition p)
       (fst (wheelCallback (exampleOptions true) (fun x => x) false
               (panGesture 5 1050) (exampleStage 3 (-200) (-200) 100 100))).
Proof.
  apply (wheel_pans_iff (exampleOptions true) (fun x => x) false
           (panGesture 5 1050) (exampleStage 3 (-200) (-200) 100 100)).
  repeat split; try reflexivity; try discriminate.
  right. reflexivity.
Defined.

(** ** The visible rectangle *)

(** X15.  In exact arithmetic, moving the position by [(dx, dy)] screen
    pixels at a positive finite scale moves the visible rectangle by
    [(-dx / scale, -dy / scale)] world units, all four edges alike, so
    that its width and height are kept.  The source divides in binary64
    and meets the four equalities up to rounding. *)
Theorem visibleRect_translate
  (position : Point) (scale dx dy : num) (container : Dimensions) :
  positive scale -> finitePoint position -> finite dx -> finite dy ->
  finite (d_width container) -> finite (d_height container) ->
  let r := calculateVisibleRect position scale container in
  let r' := calculateVisibleRect
              {| px := px position + dx; py := py position + dy |}
              scale container in
  left r' = left r - dx / scale
  /\ right r' = right r - dx / scale
  /\ top r' = top r - dy / scale
  /\ bottom r' = bottom r - dy / scale.
Proof.
  destruct position as [x y], container as [cw ch].
  unfold finitePoint. cbn [px py d_width d_height].
  fin_only scale. fin_only x. fin_only y. fin_only dx. fin_only dy.
  fin_only cw. fin_only ch.
  intros Hs _ _ _ _ _. unfold calculateVisibleRect. fin_arith.
  repeat split; fin_field.
Qed.

Lemma visibleRect_translate_witness :
  left (calculateVisibleRect
          {| px := px (pointOf (-200) (-200)) + ofZ 30;
             py := py (pointOf (-200) (-200)) + ofZ (-6) |}
          (ofZ 3) (dimsOf 100 100))
  = left (calculateVisibleRect (pointOf (-200) (-200)) (ofZ 3)
            (dimsOf 100 100))
    - ofZ 30 / ofZ 3.
Proof.
  apply (visibleRect_translate (pointOf (-200) (-200)) (ofZ 3) (ofZ 30)
           (ofZ (-6)) (dimsOf 100 100));
    try reflexivity; try exact I; split; exact I.
Defined.

(** ** The bounds tracker: properties *)

Lemma abs_self_diff (a : num) : (abs (a - a) >? one) = false.
Proof.
  destruct a as [| |a|]; try reflexivity.
  cbn [sub neg add]. replace (a + - a)%Qc with (Q2Qc 0) by ring.
  reflexivity.
Qed.

Lemma significantlyChanged_self (b : Bounds) : significantlyChanged b b = false.
Proof. unfold significantlyChanged. now rewrite !abs_self_diff. Qed.

(** X16.  A commit is stable: when [updateBounds] commits a box, running
    it again on the same scene with the committed box stored commits
    nothing (the dead band absorbs the repetition). *)
Theorem updateBounds_stable stage boundsWidth boundsHeight bounds newBounds :
  updateBounds stage boundsWidth boundsHeight bounds = Committed newBounds ->
  updateBounds stage boundsWidth boundsHeight newBounds = Kept.
Proof.
  unfold updateBounds. destruct stage as [stage|]; [|discriminate].
  destruct (sh_layer stage) as [nodes|]; [|discriminate].
  destruct (List.length nodes =? 0)%nat; [discriminate|].
  destruct (significantlyChanged _ bounds); [|discriminate].
  intro H. injection H as <-. now rewrite significantlyChanged_self.
Qed.

Lemma updateBounds_stable_witness :
  updateBounds (stageWith [rectOf 10 10 20 20]) None None (boundsOf 0 0 40 40)
  = Kept.
Proof.
  apply (updateBounds_stable (stageWith [rectOf 10 10 20 20]) None None
           initialBounds (boundsOf 0 0 40 40)).
  vm_compute. apply Committed_same. vm_compute. reflexivity.
Defined.

(** X17.  Manual bounds override the scan but not the emptiness test:
    with truthy [boundsWidth] and [boundsHeight], the outcome on a
    non-empty layer depends neither on the shapes nor on the stage
    transform (the candidate is the box [(0, 0, boundsWidth,
    boundsHeight)]), while an empty layer still commits nothing. *)
Theorem updateBounds_manual stage nodes w h bounds :
  sh_layer stage = Some nodes ->
  truthy w = true -> truthy h = true ->
  updateBounds (Some stage) (Some w) (Some h) bounds
  = match nodes with
    | [] => NoNodes
    | _ :: _ =>
        if significantlyChanged
             {| bx := zero; by_ := zero; b_width := w; b_height := h |} bounds
        then Committed
               {| bx := zero; by_ := zero; b_width := w; b_height := h |}
        else Kept
    end.
Proof.
  intros L Hw Hh. unfold updateBounds, candidateBounds, orElse.
  rewrite L, Hw, Hh. now destruct nodes.
Qed.

Lemma updateBounds_manual_witness :
  updateBounds (stageWith [rectOf 10 10 20 20]) (Some (ofZ 300))
    (Some (ofZ 200)) initialBounds
  = Committed (boundsOf 0 0 300 200).
Proof.
  unfold stageWith.
  rewrite (updateBounds_manual
             {| sh_scaleX := one; sh_position := pointOf 0 0;
                sh_layer := Some [rectOf 10 10 20 20] |}
             [rectOf 10 10 20 20] (ofZ 300) (ofZ 200) initialBounds);
    reflexivity.
Defined.

(** *** The scan *)

Lemma envelope_minX s p nodes env :
  minX (fold_left (accumulate s p) nodes env)
  = fold_left min (map (fun n => cr_x (getWorldBox n s p)) nodes) (minX env).
Proof.
  revert env. induction nodes as [|n nodes IH]; intro env; [reflexivity|].
  cbn [fold_left map]. now rewrite IH.
Qed.

Lemma envelope_minY s p nodes env :
  minY (fold_left (accumulate s p) nodes env)
  = fold_left min (map (fun n => cr_y (getWorldBox n s p)) nodes) (minY env).
Proof.
  revert env. induction nodes as [|n nodes IH]; intro env; [reflexivity|].
  cbn [fold_left map]. now rewrite IH.
Qed.

Lemma envelope_maxX s p nodes env :
  maxX (fold_left (accumulate s p) nodes env)
  = fold_left max
      (map (fun n => cr_x (getWorldBox n s p) + cr_width (getWorldBox n s p))
         nodes)
      (maxX env).
Proof.
  revert env. induction nodes as [|n nodes IH]; intro env; [reflexivity|].
  cbn [fold_left map]. now rewrite IH.
Qed.

Lemma envelope_maxY s p nodes env :
  maxY (fold_left (accumulate s p) nodes env)
  = fold_left max
      (map (fun n => cr_y (getWorldBox n s p) + cr_height (getWorldBox n s p))
         nodes)
      (maxY env).
Proof.
  revert env. induction nodes as [|n nodes IH]; intro env; [reflexivity|].
  cbn [fold_left map]. now rewrite IH.
Qed.

Lemma leb_refl (a : num) : finite a -> (a <=? a) = true.
Proof.
  destruct a; try contradiction. intros _. cbn. apply Qcleb_le, Qcle_refl.
Qed.

Lemma leb_trans (a b c : num) :
  (a <=? b) = true -> (b <=? c) = true -> (a <=? c) = true.
Proof.
  destruct a, b, c; cbn; try discriminate; auto.
  rewrite !Qcleb_le. apply Qcle_trans.
Qed.

Lemma leb_antisym (a b : num) :
  (a <=? b) = true -> (b <=? a) = true -> a = b.
Proof.
  destruct a, b; cbn; try discriminate; auto.
  rewrite !Qcleb_le. intros H1 H2. f_equal. now apply Qcle_antisym.
Qed.

Lemma min_spec (a b : num) :
  finite a -> finite b ->
  finite (min a b) /\ (min a b <=? a) = true /\ (min a b <=? b) = true
  /\ (min a b = a \/ min a b = b).
Proof.
  destruct a as [| |a|], b as [| |b|]; try contradiction. intros _ _.
  cbn [min leb]. destruct (Qcleb a b) eqn:E; cbn [finite leb].
  - repeat split; auto. apply Qcleb_le, Qcle_refl.
  - apply Qcleb_gt in E. repeat split; auto.
    + apply Qcleb_le. now apply Qclt_le_weak.
    + apply Qcleb_le, Qcle_refl.
Qed.

Lemma max_spec (a b : num) :
  finite a -> finite b ->
  finite (max a b) /\ (a <=? max a b) = true /\ (b <=? max a b) = true
  /\ (max a b = a \/ max a b = b).
Proof.
  destruct a as [| |a|], b as [| |b|]; try contradiction. intros _ _.
  cbn [max leb]. destruct (Qcleb a b) eqn:E; cbn [finite leb].
  - repeat split; auto. apply Qcleb_le, Qcle_refl.
  - apply Qcleb_gt in E. repeat split; auto.
    + apply Qcleb_le, Qcle_refl.
    + apply Qcleb_le. now apply Qclt_le_weak.
Qed.

(** The running minimum of finite numbers is finite, below the start and
    every element, and is the start or an element. *)
Lemma fold_min_spec (vs : list num) :
  Forall finite vs ->
  forall a, finite a ->
    finite (fold_left min vs a)
    /\ (fold_left min vs a <=? a) = true
    /\ Forall (fun v => (fold_left min vs a <=? v) = true) vs
    /\ (fold_left min vs a = a \/ In (fold_left min vs a) vs).
Proof.
  induction 1 as [|v vs Hv _ IH]; intros a Ha.
  - cbn. repeat split; auto. now apply leb_refl.
  - cbn [fold_left].
    destruct (min_spec a v Ha Hv) as (Fm & La & Lv & Em).
    destruct (IH (min a v) Fm) as (F & L & All & E).
    repeat split; auto.
    + eapply leb_trans; eassumption.
    + constructor; [eapply leb_trans; eassumption|exact All].
    + destruct E as [E|E]; [|right; now right].
      rewrite E. destruct Em as [->| ->]; [now left|right; now left].
Qed.

Lemma fold_max_spec (vs : list num) :
  Forall finite vs ->
  forall a, finite a ->
    finite (fold_left max vs a)
    /\ (a <=? fold_left max vs a) = true
    /\ Forall (fun v => (v <=? fold_left max vs a) = true) vs
    /\ (fold_left max vs a = a \/ In (fold_left max vs a) vs).
Proof.
  induction 1 as [|v vs Hv _ IH]; intros a Ha.
  - cbn. repeat split; auto. now apply leb_refl.
  - cbn [fold_left].
    destruct (max_spec a v Ha Hv) as (Fm & La & Lv & Em).
    destruct (IH (max a v) Fm) as (F & L & All & E).
    repeat split; auto.
    + eapply leb_trans; eassumption.
    + constructor; [eapply leb_trans; eassumption|exact All].
    + destruct E as [E|E]; [|right; now right].
      rewrite E. destruct Em as [->| ->]; [now left|right; now left].
Qed.

(** Started from [MAX_VALUE], the running minimum of a non-empty list of
    representable numbers is one of them; likewise the running maximum
    started from [-MAX_VALUE]. *)
Lemma fold_min_attained (vs : list num) :
  vs <> [] -> Forall representable vs ->
  In (fold_left min vs MAX_VALUE) vs
  /\ Forall (fun v => (fold_left min vs MAX_VALUE <=? v) = true) vs.
Proof.
  intros Hne Hvs.
  assert (Hf : Forall finite vs).
  { eapply Forall_impl; [|exact Hvs]. now intros v (F & _). }
  destruct (fold_min_spec vs Hf MAX_VALUE I) as (_ & L & All & E).
  split; [|exact All].
  destruct E as [E|E]; [|exact E].
  destruct vs as [|v vs]; [congruence|].
  inversion Hvs as [|? ? (_ & _ & Hv) _]; subst.
  inversion All as [|? ? Lv _]; subst.
  rewrite E in *. left. now apply leb_antisym.
Qed.

Lemma fold_max_attained (vs : list num) :
  vs <> [] -> Forall representable vs ->
  In (fold_left max vs (- MAX_VALUE)) vs
  /\ Forall (fun v => (v <=? fold_left max vs (- MAX_VALUE)) = true) vs.
Proof.
  intros Hne Hvs.
  assert (Hf : Forall finite vs).
  { eapply Forall_impl; [|exact Hvs]. now intros v (F & _). }
  destruct (fold_max_spec vs Hf (- MAX_VALUE) I) as (_ & L & All & E).
  split; [|exact All].
  destruct E as [E|E]; [|exact E].
  destruct vs as [|v vs]; [congruence|].
  inversion Hvs as [|? ? (_ & Hv & _) _]; subst.
  inversion All as [|? ? Lv _]; subst.
  rewrite E in *. left. symmetry. now apply leb_antisym.
Qed.

(** X18.  The scan finds the extent of the shapes: for a non-empty layer
    whose world boxes have representable edges, the accumulated envelope
    encloses every world box, and each of [minX], [maxX], [minY], [maxY]
    is the corresponding edge of some shape. *)
Theorem envelope_is_extent stageScale stagePos nodes :
  nodes <> [] ->
  Forall (fun n => representableBox (getWorldBox n stageScale stagePos))
    nodes ->
  (forall n, In n nodes ->
     (minX (envelope stageScale stagePos nodes)
      <=? cr_x (getWorldBox n stageScale stagePos)) = true
     /\ (cr_x (getWorldBox n stageScale stagePos)
         + cr_width (getWorldBox n stageScale stagePos)
         <=? maxX (envelope stageScale stagePos nodes)) = true
     /\ (minY (envelope stageScale stagePos nodes)
         <=? cr_y (getWorldBox n stageScale stagePos)) = true
     /\ (cr_y (getWorldBox n stageScale stagePos)
         + cr_height (getWorldBox n stageScale stagePos)
         <=? maxY (envelope stageScale stagePos nodes)) = true)
  /\ (exists n, In n nodes
        /\ minX (envelope stageScale stagePos nodes)
           = cr_x (getWorldBox n stageScale stagePos))
  /\ (exists n, In n nodes
        /\ maxX (envelope stageScale stagePos nodes)
           = cr_x (getWorldBox n stageScale stagePos)
             + cr_width (getWorldBox n stageScale stagePos))
  /\ (exists n, In n nodes
        /\ minY (envelope stageScale stagePos nodes)
           = cr_y (getWorldBox n stageScale stagePos))
  /\ (exists n, In n nodes
        /\ maxY (envelope stageScale stagePos nodes)
           = cr_y (getWorldBox n stageScale stagePos)
             + cr_height (getWorldBox n stageScale stagePos)).
Proof.
  intros Hne Hrep. unfold envelope.
  rewrite envelope_minX, envelope_maxX, envelope_minY, envelope_maxY.
  cbn [emptyEnvelope minX minY maxX maxY].
  set (xs := map (fun n => cr_x (getWorldBox n stageScale stagePos)) nodes).
  set (ys := map (fun n => cr_y (getWorldBox n stageScale stagePos)) nodes).
  set (rs := map (fun n => cr_x (getWorldBox n stageScale stagePos)
                           + cr_width (getWorldBox n stageScale stagePos))
               nodes).
  set (bs := map (fun n => cr_y (getWorldBox n stageScale stagePos)
                           + cr_height (getWorldBox n stageScale stagePos))
               nodes).
  assert (Nxs : xs <> []) by (unfold xs; now destruct nodes).
  assert (Nys : ys <> []) by (unfold ys; now destruct nodes).
  assert (Nrs : rs <> []) by (unfold rs; now destruct nodes).
  assert (Nbs : bs <> []) by (unfold bs; now destruct nodes).
  assert (Rxs : Forall representable xs).
  { unfold xs. apply Forall_map. eapply Forall_impl; [|exact Hrep].
    now intros n (H & _). }
  assert (Rys : Forall representable ys).
  { unfold ys. apply Forall_map. eapply Forall_impl; [|exact Hrep].
    now intros n (_ & H & _). }
  assert (Rrs : Forall representable rs).
  { unfold rs. apply Forall_map. eapply Forall_impl; [|exact Hrep].
    now intros n (_ & _ & H & _). }
  assert (Rbs : Forall representable bs).
  { unfold bs. apply Forall_map. eapply Forall_impl; [|exact Hrep].
    now intros n (_ & _ & _ & H). }
  destruct (fold_min_attained xs Nxs Rxs) as [Ix Ax].
  destruct (fold_min_attained ys Nys Rys) as [Iy Ay].
  destruct (fold_max_attained rs Nrs Rrs) as [Ir Ar].
  destruct (fold_max_attained bs Nbs Rbs) as [Ib Ab].
  split; [|split; [|split; [|split]]].
  - intros n Hn.
    unfold xs in Ax. unfold ys in Ay. unfold rs in Ar. unfold bs in Ab.
    rewrite Forall_map, Forall_forall in Ax, Ay, Ar, Ab.
    repeat split; [apply Ax|apply Ar|apply Ay|apply Ab]; exact Hn.
  - unfold xs in Ix at 2. apply in_map_iff in Ix.
    destruct Ix as (n & E & Hn). exists n. split; [exact Hn|now symmetry].
  - unfold rs in Ir at 2. apply in_map_iff in Ir.
    destruct Ir as (n & E & Hn). exists n. split; [exact Hn|now symmetry].
  - unfold ys in Iy at 2. apply in_map_iff in Iy.
    destruct Iy as (n & E & Hn). exists n. split; [exact Hn|now symmetry].
  - unfold bs in Ib at 2. apply in_map_iff in Ib.
    destruct Ib as (n & E & Hn). exists n. split; [exact Hn|now symmetry].
Qed.

Lemma envelope_is_extent_witness :
  exists n,
    In n [rectOf 10 10 20 20; rectOf (-30) 5 10 60]
    /\ minX (envelope one (pointOf 0 0)
               [rectOf 10 10 20 20; rectOf (-30) 5 10 60])
       = cr_x (getWorldBox n one (pointOf 0 0)).
Proof.
  apply (envelope_is_extent one (pointOf 0 0)
           [rectOf 10 10 20 20; rectOf (-30) 5 10 60]).
  - discriminate.
  - repeat constructor; vm_compute; reflexivity.
Defined.

(** ** The change watcher: properties *)

Section EventsFacts.

Variable Node : Type.
Variable _id : Node -> Z.

Lemma has_In (k : Z) (s : list Z) : has k s = true <-> In k s.
Proof.
  unfold has. rewrite existsb_exists. split.
  - intros (x & Hx & E). apply Z.eqb_eq in E. now subst.
  - intro H. exists k. split; [exact H|apply Z.eqb_refl].
Qed.

Lemma has_false (k : Z) (s : list Z) : has k s = false <-> ~ In k s.
Proof.
  rewrite <- has_In. destruct (has k s); split; congruence.
Qed.

Lemma mapKeys_set (k k' : Z) (v : Node) (m : NodeMap Node) :
  In k (mapKeys (mapSet k' v m)) <-> k = k' \/ In k (mapKeys m).
Proof.
  induction m as [|[a b] m IH]; cbn.
  - intuition.
  - destruct (k' =? a)%Z eqn:E; cbn.
    + apply Z.eqb_eq in E. subst. intuition.
    + rewrite IH. intuition.
Qed.

Lemma NoDup_set (k : Z) (v : Node) (m : NodeMap Node) :
  NoDup (mapKeys m) -> NoDup (mapKeys (mapSet k v m)).
Proof.
  induction m as [|[a b] m IH]; cbn; intro H.
  - constructor; [intros []|constructor].
  - inversion H as [|? ? Ha Hm]; subst.
    destruct (k =? a)%Z eqn:E; cbn.
    + apply Z.eqb_eq in E. subst. now constructor.
    + apply Z.eqb_neq in E. constructor; [|now apply IH].
      change (~ In a (mapKeys (mapSet k v m))).
      rewrite mapKeys_set. intuition.
Qed.

Lemma mapKeys_delete (k k' : Z) (m : NodeMap Node) :
  NoDup (mapKeys m) ->
  (In k (mapKeys (mapDelete k' m)) <-> k <> k' /\ In k (mapKeys m)).
Proof.
  induction m as [|[a b] m IH]; cbn; intro H.
  - intuition.
  - inversion H as [|? ? Ha Hm]; subst.
    destruct (k' =? a)%Z eqn:E; cbn.
    + apply Z.eqb_eq in E. subst. split.
      * intro Hk. split; [|now right]. intros ->. now apply Ha.
      * intros [Hne [->|Hk]]; [congruence|exact Hk].
    + apply Z.eqb_neq in E. rewrite (IH Hm). intuition congruence.
Qed.

Lemma NoDup_delete (k : Z) (m : NodeMap Node) :
  NoDup (mapKeys m) -> NoDup (mapKeys (mapDelete k m)).
Proof.
  induction m as [|[a b] m IH]; cbn; intro H; [constructor|].
  inversion H as [|? ? Ha Hm]; subst.
  destruct (k =? a)%Z; cbn; [exact Hm|].
  constructor; [|now apply IH].
  change (~ In a (mapKeys (mapDelete k m))).
  rewrite (mapKeys_delete a k m Hm). intuition.
Qed.

Lemma mapGet_None (k : Z) (m : NodeMap Node) :
  mapGet k m = None <-> ~ In k (mapKeys m).
Proof.
  induction m as [|[a b] m IH]; cbn.
  - intuition.
  - destruct (k =? a)%Z eqn:E.
    + apply Z.eqb_eq in E. subst. split; [discriminate|intuition].
    + apply Z.eqb_neq in E. rewrite IH. intuition congruence.
Qed.

Lemma mapGet_Some_In (k : Z) (n : Node) (m : NodeMap Node) :
  mapGet k m = Some n -> In k (mapKeys m).
Proof.
  intro H. destruct (in_dec Z.eq_dec k (mapKeys m)) as [Hi|Hi]; [exact Hi|].
  apply mapGet_None in Hi. congruence.
Qed.

Lemma mapGet_set_other (k k' : Z) (v : Node) (m : NodeMap Node) :
  k <> k' -> mapGet k (mapSet k' v m) = mapGet k m.
Proof.
  intro Hne. induction m as [|[a b] m IH]; cbn.
  - apply Z.eqb_neq in Hne. now rewrite Hne.
  - destruct (k' =? a)%Z eqn:E; cbn.
    + apply Z.eqb_eq in E. subst.
      apply Z.eqb_neq in Hne. now rewrite Hne.
    + now rewrite IH.
Qed.

Lemma mapGet_delete_other (k k' : Z) (m : NodeMap Node) :
  k <> k' -> mapGet k (mapDelete k' m) = mapGet k m.
Proof.
  intro Hne. induction m as [|[a b] m IH]; cbn; [reflexivity|].
  destruct (k' =? a)%Z eqn:E; cbn.
  - apply Z.eqb_eq in E. subst.
    apply Z.eqb_neq in Hne. now rewrite Hne.
  - now rewrite IH.
Qed.

Lemma mapGet_delete_same (k : Z) (m : NodeMap Node) :
  NoDup (mapKeys m) -> mapGet k (mapDelete k m) = None.
Proof.
  intro H. apply mapGet_None. rewrite (mapKeys_delete k k m H). intuition.
Qed.

(** The loop over the current shapes, from any accumulator. *)
Lemma addLoop_spec prev cur :
  forall (m : NodeMap Node) (acc : list Node),
  let r := fold_left
             (fun acc shape =>
                if negb (has (_id shape) prev)
                then (mapSet (_id shape) shape (fst acc), snd acc ++ [shape])
                else acc)
             cur (m, acc) in
  (forall k, In k (mapKeys (fst r))
             <-> In k (mapKeys m) \/ (In k (map _id cur) /\ ~ In k prev))
  /\ (NoDup (mapKeys m) -> NoDup (mapKeys (fst r)))
  /\ (forall k, In k prev -> mapGet k (fst r) = mapGet k m)
  /\ snd r = acc ++ filter (fun s => negb (has (_id s) prev)) cur.
Proof.
  induction cur as [|s cur IH]; intros m acc; cbn [fold_left map filter].
  - cbn. repeat split; auto; try tauto. now rewrite app_nil_r.
  - destruct (has (_id s) prev) eqn:E; cbn [negb fst snd].
    + apply has_In in E.
      destruct (IH m acc) as (K & N & G & S).
      repeat split; auto.
      * intro H. apply K in H. cbn [In]. tauto.
      * intro H. apply K. cbn [In] in H.
        destruct H as [H|[[<-|H] Hn]]; tauto.
    + apply has_false in E.
      destruct (IH (mapSet (_id s) s m) (acc ++ [s])) as (K & N & G & S).
      repeat split.
      * intro H. apply K in H. rewrite mapKeys_set in H. cbn [In].
        destruct H as [[->|H]|H]; tauto.
      * intro H. apply K. rewrite mapKeys_set. cbn [In] in H.
        destruct H as [H|[[<-|H] Hn]]; tauto.
      * intro H. apply N. now apply NoDup_set.
      * intros k Hk. rewrite (G k Hk). apply mapGet_set_other.
        intros ->. now apply E.
      * rewrite S, <- app_assoc. reflexivity.
Qed.

(** The loop over the previous ids, from any accumulator. *)
Lemma removeLoop_spec curIds l :
  forall (m : NodeMap Node) (acc : list Node),
  NoDup (mapKeys m) ->
  let r := fold_left
             (fun acc id =>
                if negb (has id curIds)
                then match mapGet id (fst acc) with
                     | Some trackedNode =>
                         (mapDelete id (fst acc), snd acc ++ [trackedNode])
                     | None => acc
                     end
                else acc)
             l (m, acc) in
  (forall k, In k (mapKeys (fst r))
             <-> In k (mapKeys m) /\ ~ (In k l /\ ~ In k curIds))
  /\ NoDup (mapKeys (fst r))
  /\ (forall n, In n (snd r)
                <-> In n acc
                    \/ exists id, In id l /\ ~ In id curIds
                                  /\ mapGet id m = Some n).
Proof.
  induction l as [|id l IH]; intros m acc Hm; cbn [fold_left].
  - cbn. repeat split; auto; try tauto.
    intros [H|(id & [] & _)]. exact H.
  - destruct (has id curIds) eqn:E; cbn [negb fst snd].
    + apply has_In in E.
      destruct (IH m acc Hm) as (K & N & R).
      repeat split; auto.
      * apply K in H. tauto.
      * apply K in H. cbn [In]. intros [[<-|Hl] Hc]; tauto.
      * intros [Hk Hn]. apply K. split; [exact Hk|].
        intros [Hl Hc]. apply Hn. split; [now right|exact Hc].
      * intro H. apply R in H. destruct H as [H|(i & Hi & Hc & Hg)];
          [now left|right]. exists i. repeat split; auto. now right.
      * intros [H|(i & [<-|Hi] & Hc & Hg)]; apply R; [now left|tauto|].
        right. exists i. auto.
    + apply has_false in E.
      destruct (mapGet id m) as [tracked|] eqn:G; cbn [fst snd].
      * pose proof (NoDup_delete id m Hm) as Hd.
        destruct (IH (mapDelete id m) (acc ++ [tracked]) Hd) as (K & N & R).
        repeat split; auto.
        -- apply K in H. rewrite (mapKeys_delete k id m Hm) in H. tauto.
        -- apply K in H. rewrite (mapKeys_delete k id m Hm) in H.
           cbn [In]. intros [[<-|Hl] Hc]; tauto.
        -- intros [Hk Hn]. apply K. rewrite (mapKeys_delete k id m Hm).
           repeat split; auto.
           ++ intros ->. apply Hn. split; [now left|exact E].
           ++ intros [Hl Hc]. apply Hn. split; [now right|exact Hc].
        -- intro H. apply R in H.
           destruct H as [H|(i & Hi & Hc & Hg)].
           ++ apply in_app_or in H. destruct H as [H|[<-|[]]]; [now left|].
              right. exists id. repeat split; auto. now left.
           ++ right. exists i. repeat split; auto; [now right|].
              destruct (Z.eq_dec i id) as [->|Hne].
              ** rewrite (mapGet_delete_same id m Hm) in Hg. discriminate.
              ** now rewrite (mapGet_delete_other i id m Hne) in Hg.
        -- intros [H|(i & [<-|Hi] & Hc & Hg)]; apply R.
           ++ left. apply in_or_app. now left.
           ++ left. apply in_or_app. right. left. congruence.
           ++ destruct (Z.eq_dec i id) as [->|Hne].
              ** left. apply in_or_app. right. left. congruence.
              ** right. exists i. repeat split; auto.
                 now rewrite (mapGet_delete_other i id m Hne).
      * destruct (IH m acc Hm) as (K & N & R).
        repeat split; auto.
        -- apply K in H. tauto.
        -- apply K in H. cbn [In]. intros [[<-|Hl] Hc]; [|tauto].
           apply mapGet_None in G. tauto.
        -- intros [Hk Hn]. apply K. split; [exact Hk|].
           intros [Hl Hc]. apply Hn. split; [now right|exact Hc].
        -- intro H. apply R in H. destruct H as [H|(i & Hi & Hc & Hg)];
             [now left|right]. exists i. repeat split; auto. now right.
        -- intros [H|(i & [<-|Hi] & Hc & Hg)]; apply R;
             [now left|congruence|].
           right. exists i. auto.
Qed.

Lemma addLoop_noop prev cur :
  (forall s, In s cur -> In (_id s) prev) ->
  forall (m : NodeMap Node), addLoop Node _id prev cur m = (m, []).
Proof.
  intros H m. unfold addLoop. generalize (@nil Node) as acc. revert m.
  induction cur as [|s cur IH]; intros m acc; [reflexivity|].
  cbn [fold_left].
  assert (E : has (_id s) prev = true) by (apply has_In, H; now left).
  rewrite E. cbn [negb]. apply IH. intros s' Hs'. apply H. now right.
Qed.

Lemma removeLoop_noop curIds l :
  (forall id, In id l -> In id curIds) ->
  forall (m : NodeMap Node), removeLoop Node curIds l m = (m, []).
Proof.
  intros H m. unfold removeLoop. generalize (@nil Node) as acc.
  induction l as [|id l IH]; intro acc; [reflexivity|].
  cbn [fold_left].
  assert (E : has id curIds = true) by (apply has_In, H; now left).
  rewrite E. cbn [negb]. apply IH. intros i Hi. apply H. now right.
Qed.

Lemma modifiedLoop_spec pending cur :
  forall n, In n (modifiedLoop Node _id pending cur) ->
            In n cur /\ In (_id n) pending.
Proof.
  unfold modifiedLoop.
  assert (G : forall acc n,
             In n (fold_left
                     (fun acc id =>
                        match find (fun s => (_id s =? id)%Z) cur with
                        | Some shape => acc ++ [shape]
                        | None => acc
                        end) pending acc) ->
             In n acc \/ (In n cur /\ In (_id n) pending)).
  { induction pending as [|id pending IH]; intros acc n; cbn [fold_left].
    - now left.
    - intro Hn. apply IH in Hn.
      destruct Hn as [Hn|[Hc Hp]]; [|right; split; [exact Hc|now right]].
      destruct (find (fun s => (_id s =? id)%Z) cur) as [shape|] eqn:F;
        [|now left].
      apply in_app_or in Hn. destruct Hn as [Hn|[<-|[]]]; [now left|].
      apply find_some in F. destruct F as [Hc E].
      apply Z.eqb_eq in E. right. split; [exact Hc|now left]. }
  intros n Hn. destruct (G [] n Hn) as [[]|H]. exact H.
Qed.

Lemma handleShapeChanges_unfold cur w :
  handleShapeChanges Node _id cur w
  = let a := addLoop Node _id (mapKeys (shapesRef Node w)) cur
               (shapesRef Node w) in
    let r := removeLoop Node (map _id cur) (mapKeys (shapesRef Node w))
               (fst a) in
    let modified := modifiedLoop Node _id (modifiedNodesRef Node w) cur in
    {| watcher := {| shapesRef := fst r; modifiedNodesRef := [] |};
       addedNodes := snd a;
       removedNodes := snd r;
       modifiedNodes := modified;
       notifications :=
         (if (0 <? List.length (snd a))%nat
          then [OnNodesAdded Node (snd a)] else [])
         ++ (if (0 <? List.length (snd r))%nat
             then [OnNodesRemoved Node (snd r)] else [])
         ++ (if (0 <? List.length modified)%nat
             then [OnNodesModified Node modified] else []) |}.
Proof.
  unfold handleShapeChanges.
  destruct (addLoop Node _id (mapKeys (shapesRef Node w)) cur
              (shapesRef Node w)) as [shapes1 added].
  cbn [fst snd].
  now destruct (removeLoop Node (map _id cur) (mapKeys (shapesRef Node w))
                  shapes1) as [shapes2 removed].
Qed.

(** After a diff pass the tracked ids are the live ids, the map has one
    entry per key and nothing is pending. *)
Lemma diff_tracks_live cur w :
  NoDup (mapKeys (shapesRef Node w)) ->
  (forall id,
      In id (mapKeys
               (shapesRef Node
                  (watcher Node (handleShapeChanges Node _id cur w))))
      <-> In id (map _id cur))
  /\ NoDup (mapKeys
              (shapesRef Node
                 (watcher Node (handleShapeChanges Node _id cur w))))
  /\ modifiedNodesRef Node
       (watcher Node (handleShapeChanges Node _id cur w)) = [].
Proof.
  intro Hm. rewrite handleShapeChanges_unfold.
  cbn [watcher shapesRef modifiedNodesRef].
  unfold addLoop, removeLoop.
  destruct (addLoop_spec (mapKeys (shapesRef Node w)) cur
              (shapesRef Node w) []) as (K1 & N1 & _ & _).
  specialize (N1 Hm).
  match goal with
  | |- context [fold_left ?f (mapKeys (shapesRef Node w)) (?m1, [])] =>
      destruct (removeLoop_spec (map _id cur)
                  (mapKeys (shapesRef Node w)) m1 [] N1) as (K2 & N2 & _)
  end.
  repeat split; auto.
  - intro H. apply K2 in H. destruct H as [H1 H2].
    apply K1 in H1. destruct H1 as [H1|[H1 _]]; [|exact H1].
    destruct (in_dec Z.eq_dec id (map _id cur)); tauto.
  - intro H. apply K2. split; [|tauto].
    apply K1. destruct (in_dec Z.eq_dec id (mapKeys (shapesRef Node w)));
      tauto.
Qed.

(** A diff pass on a watcher that tracks exactly the live ids, with
    nothing pending, changes nothing and notifies nobody. *)
Lemma diff_quiet cur w :
  (forall id, In id (mapKeys (shapesRef Node w)) <-> In id (map _id cur)) ->
  modifiedNodesRef Node w = [] ->
  handleShapeChanges Node _id cur w
  = {| watcher := w; addedNodes := []; removedNodes := [];
       modifiedNodes := []; notifications := [] |}.
Proof.
  intros K P. rewrite handleShapeChanges_unfold.
  assert (A : addLoop Node _id (mapKeys (shapesRef Node w)) cur
                (shapesRef Node w) = (shapesRef Node w, [])).
  { apply (addLoop_noop (mapKeys (shapesRef Node w)) cur).
    intros s Hs. apply K. now apply in_map. }
  rewrite A. cbn [fst snd].
  rewrite (removeLoop_noop (map _id cur) (mapKeys (shapesRef Node w)))
    by (intros id Hid; now apply K).
  rewrite P. cbn. destruct w as [m p]. cbn in P. now subst.
Qed.

(** X20.  After a diff pass the tracked ids are exactly the ids of the
    live shapes, the map still has one entry per key and the pending set
    is empty. *)
Theorem handleShapeChanges_tracks_live cur w :
  NoDup (mapKeys (shapesRef Node w)) ->
  (forall id,
      In id (mapKeys
               (shapesRef Node
                  (watcher Node (handleShapeChanges Node _id cur w))))
      <-> In id (map _id cur))
  /\ NoDup (mapKeys
              (shapesRef Node
                 (watcher Node (handleShapeChanges Node _id cur w))))
  /\ modifiedNodesRef Node
       (watcher Node (handleShapeChanges Node _id cur w)) = [].
Proof. apply diff_tracks_live. Qed.

(** X21.  The batches of a diff pass: the added nodes are the live
    shapes whose id was not tracked, in scene order; the removed nodes
    are the tracked nodes whose id is no longer live; every modified node
    is a live shape whose id was pending. *)
Theorem handleShapeChanges_batches cur w :
  NoDup (mapKeys (shapesRef Node w)) ->
  addedNodes Node (handleShapeChanges Node _id cur w)
  = filter (fun s => negb (has (_id s) (mapKeys (shapesRef Node w)))) cur
  /\ (forall n,
        In n (removedNodes Node (handleShapeChanges Node _id cur w))
        <-> exists id, mapGet id (shapesRef Node w) = Some n
                       /\ ~ In id (map _id cur))
  /\ (forall n,
        In n (modifiedNodes Node (handleShapeChanges Node _id cur w)) ->
        In n cur /\ In (_id n) (modifiedNodesRef Node w)).
Proof.
  intro Hm. rewrite handleShapeChanges_unfold.
  cbn [addedNodes removedNodes modifiedNodes].
  unfold addLoop, removeLoop.
  destruct (addLoop_spec (mapKeys (shapesRef Node w)) cur
              (shapesRef Node w) []) as (K1 & N1 & G1 & S1).
  specialize (N1 Hm).
  match goal with
  | |- context [fold_left ?f (mapKeys (shapesRef Node w)) (?m1, [])] =>
      destruct (removeLoop_spec (map _id cur)
                  (mapKeys (shapesRef Node w)) m1 [] N1) as (_ & _ & R)
  end.
  split; [exact S1|]. split.
  - intro n. split.
    + intro H. apply R in H. destruct H as [[]|(id & Hid & Hc & Hg)].
      exists id. split; [|exact Hc]. now rewrite (G1 id Hid) in Hg.
    + intros (id & Hg & Hc). apply R. right. exists id.
      assert (Hid : In id (mapKeys (shapesRef Node w)))
        by (eapply mapGet_Some_In; eassumption).
      repeat split; auto. now rewrite (G1 id Hid).
  - apply modifiedLoop_spec.
Qed.

(** X22.  A second diff pass on the same scene is quiet: it finds
    nothing added, removed or modified, invokes no callback and leaves
    the watcher as the first pass left it (so several passes requested
    within one frame notify once). *)
Theorem second_pass_is_quiet cur w :
  NoDup (mapKeys (shapesRef Node w)) ->
  handleShapeChanges Node _id cur
    (watcher Node (handleShapeChanges Node _id cur w))
  = {| watcher := watcher Node (handleShapeChanges Node _id cur w);
       addedNodes := []; removedNodes := []; modifiedNodes := [];
       notifications := [] |}.
Proof.
  intro Hm. destruct (diff_tracks_live cur w Hm) as (K & _ & P).
  now apply diff_quiet.
Qed.

Lemma register_keys (l : list Node) :
  forall (m : NodeMap Node) k,
    In k (mapKeys (fold_left (fun m shape => mapSet (_id shape) shape m) l m))
    <-> In k (mapKeys m) \/ In k (map _id l).
Proof.
  induction l as [|s l IH]; intros m k; cbn [fold_left map In].
  - tauto.
  - rewrite IH, mapKeys_set. split.
    + intros [[->|H]|H]; auto.
    + intros [H|[<-|H]]; auto.
Qed.

(** X23.  Shapes that are on the stage when the effect runs are
    registered at once, so the first diff pass does not report them as
    added. *)
Theorem initial_shapes_not_reported cur w :
  addedNodes Node
    (handleShapeChanges Node _id cur (registerInitialShapes Node _id cur w))
  = [].
Proof.
  rewrite handleShapeChanges_unfold. cbn [addedNodes].
  rewrite addLoop_noop; [reflexivity|].
  intros s Hs. unfold registerInitialShapes. cbn [shapesRef].
  apply register_keys. right. now apply in_map.
Qed.

End EventsFacts.

Lemma exampleWatcher_NoDup : NoDup (mapKeys (shapesRef Z exampleWatcher)).
Proof.
  cbn. constructor; [intros [H|[]]; discriminate|].
  constructor; [intros []|constructor].
Qed.

Lemma handleShapeChanges_tracks_live_witness :
  modifiedNodesRef Z
    (watcher Z
       (handleShapeChanges Z (fun n => n) [2; 3]%Z exampleWatcher))
  = [].
Proof.
  apply (handleShapeChanges_tracks_live Z (fun n => n) [2; 3]%Z
           exampleWatcher exampleWatcher_NoDup).
Defined.

Lemma handleShapeChanges_batches_witness :
  addedNodes Z (handleShapeChanges Z (fun n => n) [2; 3]%Z exampleWatcher)
  = filter
      (fun s => negb (has s (mapKeys (shapesRef Z exampleWatcher))))
      [2; 3]%Z.
Proof.
  apply (handleShapeChanges_batches Z (fun n => n) [2; 3]%Z
           exampleWatcher exampleWatcher_NoDup).
Defined.

Lemma second_pass_is_quiet_witness :
  notifications Z
    (handleShapeChanges Z (fun n => n) [2; 3]%Z
       (watcher Z
          (handleShapeChanges Z (fun n => n) [2; 3]%Z exampleWatcher)))
  = [].
Proof.
  rewrite (second_pass_is_quiet Z (fun n => n) [2; 3]%Z exampleWatcher
             exampleWatcher_NoDup).
  reflexivity.
Defined.

(** The first pass of the example adds shape [3], removes shape [1] and
    reports shape [2] as modified, with one callback each. *)
Example diff_pass_example :
  notifications Z
    (handleShapeChanges Z (fun n => n) [2; 3]%Z exampleWatcher)
  = [OnNodesAdded Z [3%Z]; OnNodesRemoved Z [1%Z]; OnNodesModified Z [2%Z]].
Proof. reflexivity. Qed.

(** ** The minimap: properties *)

Lemma keep_between (hi : Qc) (v : num) :
  (Q2Qc 0 <= hi)%Qc -> v <> NaN ->
  exists r : Qc,
    min (max v zero) (Fin hi) = Fin r /\ (Q2Qc 0 <= r)%Qc /\ (r <= hi)%Qc.
Proof.
  intros Hhi Hv.
  assert (L : Qcleb (Q2Qc 0) hi = true) by (now apply Qcleb_le).
  destruct v as [| |v|]; try congruence; cbn [max min leb zero].
  - rewrite L. exists (Q2Qc 0). repeat split; auto. apply Qcle_refl.
  - destruct (Qcleb v (Q2Qc 0)) eqn:E1; cbn [min leb zero].
    + rewrite L. exists (Q2Qc 0). repeat split; auto. apply Qcle_refl.
    + apply Qcleb_gt in E1.
      destruct (Qcleb v hi) eqn:E2;
        [apply Qcleb_le in E2 | apply Qcleb_gt in E2].
      * exists v. repeat split; auto. now apply Qclt_le_weak.
      * exists hi. repeat split; auto. apply Qcle_refl.
  - exists hi. repeat split; auto. apply Qcle_refl.
Qed.

Lemma keep_fixed (hi r : Qc) :
  (Q2Qc 0 <= r)%Qc -> (r <= hi)%Qc ->
  min (max (Fin r) zero) (Fin hi) = Fin r.
Proof.
  intros L U. unfold zero. cbn [max min leb].
  qc_cases; cbn [min leb]; qc_cases; qc_order.
Qed.

Lemma frame_room (c pct : Qc) :
  (Q2Qc 0 <= c)%Qc -> (Q2Qc 0 <= pct)%Qc -> (pct <= Q2Qc 1)%Qc ->
  (Q2Qc 0 <= c + - (c * pct))%Qc.
Proof. intros. qc2q. nra. Qed.

(** The frame position computed from a candidate [(vx, vy)] lies inside
    the container, the frame with it. *)
Lemma frame_inside (cw ch pct : Qc) (vx vy : num) :
  (Q2Qc 0 <= cw)%Qc -> (Q2Qc 0 <= ch)%Qc ->
  (Q2Qc 0 <= pct)%Qc -> (pct <= Q2Qc 1)%Qc ->
  vx <> NaN -> vy <> NaN ->
  let x := min (max vx zero) (Fin cw - Fin cw * Fin pct) in
  let y := min (max vy zero) (Fin ch - Fin ch * Fin pct) in
  (zero <=? x) = true /\ (x + Fin cw * Fin pct <=? Fin cw) = true
  /\ (zero <=? y) = true /\ (y + Fin ch * Fin pct <=? Fin ch) = true.
Proof.
  intros Hcw Hch Hp0 Hp1 Hx Hy. cbn [sub neg mul add].
  destruct (keep_between _ vx (frame_room cw pct Hcw Hp0 Hp1) Hx)
    as (rx & -> & Lx & Ux).
  destruct (keep_between _ vy (frame_room ch pct Hch Hp0 Hp1) Hy)
    as (ry & -> & Ly & Uy).
  cbn [add leb zero]. rewrite !Qcleb_le.
  repeat split; auto; qc2q; lra.
Qed.

(** X24.  Dragging keeps the minimap inside the container: with finite
    non-negative container dimensions and a size fraction between [0] and
    [1], after a drag move by a finite movement the frame lies within the
    container on both axes. *)
Theorem minimap_drag_stays_inside container minimapPct movementX movementY m :
  finite (d_width container) -> (zero <=? d_width container) = true ->
  finite (d_height container) -> (zero <=? d_height container) = true ->
  (zero <=? minimapPct) = true -> (minimapPct <=? one) = true ->
  finitePoint (mm_position m) -> finite movementX -> finite movementY ->
  mm_dragging m = true ->
  let p := mm_position
             (minimapDragMove container minimapPct movementX movementY m) in
  (zero <=? px p) = true
  /\ (px p + d_width container * minimapPct <=? d_width container) = true
  /\ (zero <=? py p) = true
  /\ (py p + d_height container * minimapPct <=? d_height container) = true.
Proof.
  destruct container as [cw ch], m as [dr [x y]].
  unfold finitePoint. cbn [d_width d_height mm_position mm_dragging px py].
  fin_only cw. intros _ Hcw. fin_only ch. intros _ Hch.
  destruct minimapPct as [| |pct|]; try discriminate. intros Hp0 Hp1.
  fin_only x. fin_only y. intros _. fin_only movementX. fin_only movementY.
  intros _ _ ->. unfold minimapDragMove.
  cbn [negb mm_dragging mm_position d_width d_height px py].
  cbn [leb zero one] in Hcw, Hch, Hp0, Hp1.
  apply Qcleb_le in Hcw, Hch, Hp0, Hp1.
  apply frame_inside; auto; discriminate.
Qed.

Lemma minimap_drag_stays_inside_witness :
  (px (mm_position
         (minimapDragMove (dimsOf 800 400) (ofQ (1 # 5)) (ofZ 900) (ofZ (-7))
            {| mm_dragging := true; mm_position := pointOf 10 10 |}))
   + d_width (dimsOf 800 400) * ofQ (1 # 5)
   <=? d_width (dimsOf 800 400)) = true.
Proof.
  apply (minimap_drag_stays_inside (dimsOf 800 400) (ofQ (1 # 5)) (ofZ 900)
           (ofZ (-7)) {| mm_dragging := true; mm_position := pointOf 10 10 |});
    try reflexivity; try exact I; split; exact I.
Defined.

(** X25.  The resize effect brings the minimap back inside the container
    and is idempotent: with finite non-negative container dimensions, a
    size fraction between [0] and [1] and a position whose coordinates are
    numbers, the frame lies within the container afterwards, and running
    the effect again moves nothing. *)
Theorem minimapKeepInside_inside container minimapPct m :
  finite (d_width container) -> (zero <=? d_width container) = true ->
  finite (d_height container) -> (zero <=? d_height container) = true ->
  (zero <=? minimapPct) = true -> (minimapPct <=? one) = true ->
  px (mm_position m) <> NaN -> py (mm_position m) <> NaN ->
  let m' := minimapKeepInside container minimapPct m in
  (zero <=? px (mm_position m')) = true
  /\ (px (mm_position m') + d_width container * minimapPct
      <=? d_width container) = true
  /\ (zero <=? py (mm_position m')) = true
  /\ (py (mm_position m') + d_height container * minimapPct
      <=? d_height container) = true
  /\ minimapKeepInside container minimapPct m' = m'.
Proof.
  destruct container as [cw ch], m as [dr [x y]].
  cbn [d_width d_height mm_position mm_dragging px py].
  fin_only cw. intros _ Hcw. fin_only ch. intros _ Hch.
  destruct minimapPct as [| |pct|]; try discriminate. intros Hp0 Hp1 Hx Hy.
  cbn [leb zero one] in Hcw, Hch, Hp0, Hp1.
  apply Qcleb_le in Hcw, Hch, Hp0, Hp1.
  unfold minimapKeepInside.
  cbn [mm_dragging mm_position d_width d_height px py].
  destruct (frame_inside cw ch pct x y Hcw Hch Hp0 Hp1 Hx Hy)
    as (X0 & X1 & Y0 & Y1).
  repeat split; auto.
  cbn [sub neg mul add] in *.
  destruct (keep_between _ x (frame_room cw pct Hcw Hp0 Hp1) Hx)
    as (rx & Ex & Lx & Ux).
  destruct (keep_between _ y (frame_room ch pct Hch Hp0 Hp1) Hy)
    as (ry & Ey & Ly & Uy).
  rewrite Ex, Ey. now rewrite !keep_fixed by assumption.
Qed.

Lemma minimapKeepInside_inside_witness :
  minimapKeepInside (dimsOf 800 400) (ofQ (1 # 5))
    (minimapKeepInside (dimsOf 800 400) (ofQ (1 # 5))
       {| mm_dragging := false; mm_position := pointOf 900 (-3) |})
  = minimapKeepInside (dimsOf 800 400) (ofQ (1 # 5))
      {| mm_dragging := false; mm_position := pointOf 900 (-3) |}.
Proof.
  apply (minimapKeepInside_inside (dimsOf 800 400) (ofQ (1 # 5))
           {| mm_dragging := false; mm_position := pointOf 900 (-3) |});
    try reflexivity; try exact I; discriminate.
Defined.

(** X26.  In exact arithmetic, at the reset transform the viewport
    indicator covers the whole minimap: on positive finite dimensions and
    a finite size fraction its width and height are the container's times
    the fraction, and its offset is the bounds origin scaled ([0] for
    bounds at the origin).  The source computes the indicator in binary64
    and meets the equalities up to rounding. *)
Theorem overlay_covers_minimap_at_reset bounds container minimapPct :
  positive (b_width bounds) -> positive (b_height bounds) ->
  finite (bx bounds) -> finite (by_ bounds) ->
  positive (d_width container) -> positive (d_height container) ->
  finite minimapPct ->
  minimapOverlay container (fst (getResetTransform bounds container))
    (dims bounds)
    (calculateVisibleRect (snd (getResetTransform bounds container))
       (fst (getResetTransform bounds container)) container)
    minimapPct
  = {| ov_left :=
         bx bounds * fst (getResetTransform bounds container) * minimapPct;
       ov_top :=
         by_ bounds * fst (getResetTransform bounds container) * minimapPct;
       ov_width := d_width container * minimapPct;
       ov_height := d_height container * minimapPct |}.
Proof.
  destruct bounds as [x y bw bh], container as [cw ch].
  cbn [bx by_ b_width b_height d_width d_height].
  fin_only bw. fin_only bh. fin_only x. fin_only y. fin_only cw. fin_only ch.
  fin_only minimapPct.
  intros Hbw Hbh _ _ Hcw Hch _.
  destruct (calculateScale_value bw bh cw ch Hbw Hbh Hcw Hch)
    as (m & Hm & E & _).
  unfold getResetTransform, dims. cbn [fst snd b_width b_height].
  rewrite E. cbn [sx]. rewrite initialRect_value by assumption.
  unfold minimapOverlay. fin_arith.
  f_equal; fin_field.
Qed.

Lemma overlay_covers_minimap_at_reset_witness :
  ov_width
    (minimapOverlay (dimsOf 800 300)
       (fst (getResetTransform (boundsOf 0 0 1000 500) (dimsOf 800 300)))
       (dims (boundsOf 0 0 1000 500))
       (calculateVisibleRect
          (snd (getResetTransform (boundsOf 0 0 1000 500) (dimsOf 800 300)))
          (fst (getResetTransform (boundsOf 0 0 1000 500) (dimsOf 800 300)))
          (dimsOf 800 300))
       (ofQ (1 # 5)))
  = d_width (dimsOf 800 300) * ofQ (1 # 5).
Proof.
  rewrite (overlay_covers_minimap_at_reset (boundsOf 0 0 1000 500)
             (dimsOf 800 300) (ofQ (1 # 5)));
    try reflexivity; exact I.
Defined.

(** X27.  In exact arithmetic, the size of the viewport indicator
    depends on the zoom only: for the rectangle visible at a finite
    position and a positive finite scale, with a positive finite initial
    scale, its width and height are the minimap's
    ([container * minimapPct]) times [initialScale / scale].  The source
    takes the differences [right - left] and [bottom - top] in binary64,
    where they depend on the position in the last digits, and meets the
    equalities up to rounding. *)
Theorem overlay_size container initialScale bounds position scale minimapPct :
  finite (d_width container) -> finite (d_height container) ->
  positive initialScale -> positive scale -> finitePoint position ->
  finite minimapPct ->
  let o := minimapOverlay container initialScale bounds
             (calculateVisibleRect position scale container) minimapPct in
  ov_width o = d_width container * minimapPct * (initialScale / scale)
  /\ ov_height o = d_height container * minimapPct * (initialScale / scale).
Proof.
  destruct container as [cw ch], position as [x y].
  unfold finitePoint. cbn [d_width d_height px py].
  fin_only cw. fin_only ch. fin_only initialScale. fin_only scale.
  fin_only x. fin_only y. fin_only minimapPct.
  intros _ _ Hs0 Hs _ _.
  unfold minimapOverlay, calculateVisibleRect.
  cbn [ov_width ov_height left right top bottom]. fin_arith.
  split; fin_field.
Qed.

Lemma overlay_size_witness :
  ov_width
    (minimapOverlay (dimsOf 800 300) (ofQ (3 # 10)) (dimsOf 1000 500)
       (calculateVisibleRect (pointOf (-40) 15) (ofQ (6 # 10))
          (dimsOf 800 300))
       (ofQ (1 # 5)))
  = d_width (dimsOf 800 300) * ofQ (1 # 5) * (ofQ (3 # 10) / ofQ (6 # 10)).
Proof.
  apply (overlay_size (dimsOf 800 300) (ofQ (3 # 10)) (dimsOf 1000 500)
           (pointOf (-40) 15) (ofQ (6 # 10)) (ofQ (1 # 5)));
    try reflexivity; try exact I; split; exact I.
Defined.

(** ** The minimap snapshot: properties *)

(** X28.  Taking the snapshot leaves the stage transform as it was: the
    capture is made at scale [1] and position [(0, 0)], and afterwards a
    stage with a uniform scale has the position, scale and size it had
    before (in general [scaleY] is set to the former [scaleX]). *)
Theorem capturePreview_restores stage bounds container initialScale :
  exists capture,
    capturePreview (Some stage) true bounds container initialScale
    = Some (k_setScale (k_scaleX stage) (k_scaleX stage) stage, capture)
    /\ cap_stage capture
       = k_setPosition zero zero (k_setScale one one stage)
    /\ (k_scaleX stage = k_scaleY stage ->
        capturePreview (Some stage) true bounds container initialScale
        = Some (stage, capture)).
Proof.
  eexists. unfold capturePreview. cbn [negb].
  split; [|split].
  - destruct stage; reflexivity.
  - reflexivity.
  - intro H. destruct stage as [x y s1 s2 w h]. cbn in H. subst.
    reflexivity.
Qed.

(** X29.  The snapshot shows the initial view, in exact arithmetic: with
    the stage sized as the container and the initial scale being the fit
    scale of positive finite dimensions, the region passed to [toDataURL]
    is the rectangle visible under the reset transform.  The source
    computes the region and the rectangle by different binary64
    operations and meets the equality up to rounding. *)
Theorem capturePreview_region stage bounds container :
  positive (b_width bounds) -> positive (b_height bounds) ->
  finite (bx bounds) -> finite (by_ bounds) ->
  positive (d_width container) -> positive (d_height container) ->
  k_width stage = d_width container ->
  k_height stage = d_height container ->
  exists after capture,
    capturePreview (Some stage) true bounds container
      (fst (getResetTransform bounds container))
    = Some (after, capture)
    /\ {| left := cap_x capture;
          top := cap_y capture;
          right := cap_x capture + cap_width capture;
          bottom := cap_y capture + cap_height capture |}
       = calculateVisibleRect (snd (getResetTransform bounds container))
           (fst (getResetTransform bounds container)) container.
Proof.
  destruct bounds as [x y bw bh], container as [cw ch],
    stage as [kx ky s1 s2 kw kh].
  cbn [bx by_ b_width b_height d_width d_height k_width k_height].
  fin_only bw. fin_only bh. fin_only x. fin_only y. fin_only cw. fin_only ch.
  intros Hbw Hbh _ _ Hcw Hch -> ->.
  destruct (calculateScale_value bw bh cw ch Hbw Hbh Hcw Hch)
    as (m & Hm & E & _).
  unfold getResetTransform, dims. cbn [fst snd b_width b_height].
  rewrite E. cbn [sx]. rewrite initialRect_value by assumption.
  eexists. eexists. split; [reflexivity|].
  cbn [cap_x cap_y cap_width cap_height k_setScale k_setPosition k_width
         k_height bx by_ b_width b_height d_width d_height].
  fin_arith. unfold two. cbn [mul].
  pose proof (Qcdiv_pos _ _ Hcw Hm) as Hk.
  assert (Ht : (Q2Qc 0 < bw + (cw / m + - bw) / Q2Qc 2 * Q2Qc 2)%Qc).
  { replace (bw + (cw / m + - bw) / Q2Qc 2 * Q2Qc 2)%Qc with (cw / m)%Qc;
      [exact Hk|qc_field]. }
  fin_arith.
  assert (Hc : (Q2Qc 0
                < cw / (bw + (cw / m + - bw) / Q2Qc 2 * Q2Qc 2))%Qc)
    by (now apply Qcdiv_pos).
  fin_arith.
  pose proof (Qc_pos_nonzero _ Hcw) as Ncw.
  f_equal; apply f_equal; rewrite ?Qc_two; field; repeat split;
    try (apply Qc_pos_nonzero; assumption); try assumption;
    try discriminate;
    intro Hz; apply Ncw; rewrite <- Hz; ring.
Qed.

Lemma capturePreview_restores_witness :
  exists capture,
    capturePreview (Some exampleKonva) true (boundsOf 0 0 1000 500)
      (dimsOf 800 300) (ofQ (3 # 5))
    = Some (exampleKonva, capture).
Proof.
  destruct (capturePreview_restores exampleKonva (boundsOf 0 0 1000 500)
              (dimsOf 800 300) (ofQ (3 # 5))) as (capture & _ & _ & H).
  exists capture. apply H. reflexivity.
Defined.

Lemma capturePreview_region_witness :
  exists after capture,
    capturePreview (Some exampleKonva) true (boundsOf 0 0 1000 500)
      (dimsOf 800 300)
      (fst (getResetTransform (boundsOf 0 0 1000 500) (dimsOf 800 300)))
    = Some (after, capture)
    /\ {| left := cap_x capture;
          top := cap_y capture;
          right := cap_x capture + cap_width capture;
          bottom := cap_y capture + cap_height capture |}
       = calculateVisibleRect
           (snd (getResetTransform (boundsOf 0 0 1000 500) (dimsOf 800 300)))
           (fst (getResetTransform (boundsOf 0 0 1000 500) (dimsOf 800 300)))
           (dimsOf 800 300).
Proof.
  apply (capturePreview_region exampleKonva (boundsOf 0 0 1000 500)
           (dimsOf 800 300));
    try reflexivity; exact I.
Defined.
